(** * dm-data-null-injector: the null injector of [main.py]

    A shallow embedding of [inject_nulls] (and of the column splitting done
    by [main]) together with the properties of its specification.

    Python objects that the function only reads are plain values.  The
    DataFrame is mutated in place and the function logs and draws random
    numbers, so the body runs in a state-and-exception monad whose state
    holds the contents of the DataFrame object, the log, the position in the
    random stream and a ghost trace of the cells visited. *)

From Stdlib Require Import ZArith QArith List String Ascii Bool Lia.
From Stdlib Require Import DecimalString.
Import ListNotations.

Open Scope Z_scope.
Open Scope string_scope.
Open Scope list_scope.

(* ------------------------------------------------------------------ *)
(** ** Strings

    A [string] is read as a sequence of code points below 256.  *)

Module Str.

(** [str.isspace] on one character, as CPython's [_PyUnicode_IsWhitespace]
    decides it for code points below 256. *)
Definition is_space (c : ascii) : bool :=
  let n := nat_of_ascii c in
  ((9 <=? n) && (n <=? 13) || (28 <=? n) && (n <=? 32)
   || (n =? 133) || (n =? 160))%nat.

Fixpoint lstrip (s : string) : string :=
  match s with
  | EmptyString => EmptyString
  | String c s' => if is_space c then lstrip s' else s
  end.

Fixpoint rstrip (s : string) : string :=
  match s with
  | EmptyString => EmptyString
  | String c s' =>
      match rstrip s' with
      | EmptyString => if is_space c then EmptyString else String c EmptyString
      | r => String c r
      end
  end.

(** [s.strip()] *)
Definition strip (s : string) : string := lstrip (rstrip s).

(** [s.split(',')]: the pieces between commas, empty pieces included. *)
Fixpoint split_comma (s : string) : list string :=
  match s with
  | EmptyString => [EmptyString]
  | String c s' =>
      if Ascii.eqb c "," then EmptyString :: split_comma s'
      else match split_comma s' with
           | [] => [String c EmptyString]
           | p :: ps => String c p :: ps
           end
  end.

(** [str(i)] for an integer. *)
Definition of_Z (i : Z) : string := NilZero.string_of_int (Z.to_int i).

End Str.

(* ------------------------------------------------------------------ *)
(** ** Floats

    A Python float is a finite rational, an infinity or NaN; comparisons
    with NaN are false. *)

Inductive pyfloat : Type :=
| Finite (q : Q)
| PosInf
| NegInf
| NaN.

Definition Qltb (x y : Q) : bool := negb (Qle_bool y x).

Definition float_le (a b : pyfloat) : bool :=
  match a, b with
  | NaN, _ | _, NaN => false
  | NegInf, _ => true
  | _, PosInf => true
  | Finite x, Finite y => Qle_bool x y
  | _, _ => false
  end.

Definition float_lt (a b : pyfloat) : bool :=
  match a, b with
  | NaN, _ | _, NaN => false
  | PosInf, _ => false
  | _, NegInf => false
  | Finite x, Finite y => Qltb x y
  | _, _ => true
  end.

(* ------------------------------------------------------------------ *)
(** ** Cells and DataFrames *)

(** A cell value: a [str], a number (an int and the float it is upcast to
    are the same number), a bool, or the null marker ([None] / NaN). *)
Inductive cell : Type :=
| VStr (s : string)
| VNum (q : Q)
| VBool (b : bool)
| VNone.

(** A DataFrame: the row labels and, in column order, each column label
    with its cells. *)
Record DataFrame : Type := {
  index : list Z;
  series : list (string * list cell)
}.

(** [data.columns] *)
Definition columns (df : DataFrame) : list string := map fst (series df).

Fixpoint mem_string (x : string) (l : list string) : bool :=
  match l with
  | [] => false
  | y :: l' => String.eqb x y || mem_string x l'
  end.

Fixpoint mem_Z (x : Z) (l : list Z) : bool :=
  match l with
  | [] => false
  | y :: l' => Z.eqb x y || mem_Z x l'
  end.

Fixpoint nodup_string (l : list string) : bool :=
  match l with
  | [] => true
  | x :: l' => negb (mem_string x l') && nodup_string l'
  end.

Fixpoint nodup_Z (l : list Z) : bool :=
  match l with
  | [] => true
  | x :: l' => negb (mem_Z x l') && nodup_Z l'
  end.

(** The table of the specification: column labels are distinct, row
    labels address single rows, and every column has one cell per row.
    [data[col]], [.items()] and [.at] are modelled for such frames: with
    labels that address one row, a cell read by the inner loop has not been
    written before in that pass. *)
Definition wf_frame (df : DataFrame) : bool :=
  nodup_string (columns df) && nodup_Z (index df)
  && forallb (fun p => Nat.eqb (List.length (snd p)) (List.length (index df))) (series df).

(** [data[col]]: the cells of the column labelled [col]. *)
Definition getitem (df : DataFrame) (col : string) : option (list cell) :=
  match find (fun p => String.eqb (fst p) col) (series df) with
  | Some p => Some (snd p)
  | None => None
  end.

(** [data[col].items()]: the (row label, value) pairs in row order. *)
Definition items (df : DataFrame) (cells : list cell) : list (Z * cell) :=
  combine (index df) cells.

Fixpoint set_label (labels : list Z) (i : Z) (v : cell) (cells : list cell)
  : list cell :=
  match labels, cells with
  | l :: ls, x :: xs => (if Z.eqb l i then v else x) :: set_label ls i v xs
  | _, _ => cells
  end.

(** [data.at[i, col] = v] for labels present in the frame. *)
Definition at_set (df : DataFrame) (i : Z) (col : string) (v : cell)
  : DataFrame :=
  {| index := index df;
     series := map (fun p => if String.eqb (fst p) col
                             then (fst p, set_label (index df) i v (snd p))
                             else p) (series df) |}.

(** The cell at row label [i] of column [col], if there is one. *)
Fixpoint lookup_label (labels : list Z) (i : Z) (cells : list cell)
  : option cell :=
  match labels, cells with
  | l :: ls, x :: xs => if Z.eqb l i then Some x else lookup_label ls i xs
  | _, _ => None
  end.

Definition at_get (df : DataFrame) (i : Z) (col : string) : option cell :=
  match getitem df col with
  | Some cells => lookup_label (index df) i cells
  | None => None
  end.

(** The labels of a frame and the length of each column: what no
    assignment to a cell changes. *)
Definition shape (df : DataFrame) : list Z * list (string * nat) :=
  (index df, map (fun p => (fst p, List.length (snd p))) (series df)).

(** Any Python object that can be passed as [data]. *)
Inductive pyobj : Type :=
| PDataFrame (df : DataFrame)
| PList (xs : list cell)
| PStr (s : string)
| PNone.

(* ------------------------------------------------------------------ *)
(** ** Exceptions, log records, state *)

Inductive exn : Type :=
| TypeError (msg : string)
| ValueError (msg : string)
| KeyError (key : string)
| NotImplementedError (msg : string)
| re_error (msg : string) (pos : nat).

(** [str(e)] *)
Definition str_exn (e : exn) : string :=
  match e with
  | TypeError m | ValueError m | NotImplementedError m => m
  | KeyError k => "'" ++ k ++ "'"
  | re_error m pos => m ++ " at position " ++ Str.of_Z (Z.of_nat pos)
  end.

Inductive level : Type := DEBUG | INFO | WARNING | ERROR.

Record log_record : Type := { levelname : level; message : string }.

(** A ghost record of the iteration: the cell the inner loop is at, and
    the cell a random number is drawn for. *)
Inductive event : Type :=
| Visit (col : string) (i : Z)
| Draw (col : string) (i : Z).

Record world : Type := {
  log : list log_record;   (** calls made to [logging], oldest first *)
  rng : nat;               (** numbers drawn from [random] so far *)
  trace : list event       (** ghost *)
}.

Definition state : Type := DataFrame * world.

Definition M (A : Type) : Type := state -> (exn + A) * state.

Definition ret {A} (x : A) : M A := fun s => (inr x, s).

Definition bind {A B} (c : M A) (k : A -> M B) : M B :=
  fun s => match c s with
           | (inr x, s') => k x s'
           | (inl e, s') => (inl e, s')
           end.

Definition raise {A} (e : exn) : M A := fun s => (inl e, s).

Definition lift {A} (r : exn + A) : M A := fun s => (r, s).

(** [try: body except Exception as e: handler e] *)
Definition try_except {A} (body : M A) (handler : exn -> M A) : M A :=
  fun s => match body s with
           | (inl e, s') => handler e s'
           | r => r
           end.

Declare Scope monad_scope.
Delimit Scope monad_scope with monad.
Notation "x <- c ;; k" := (bind c (fun x => k))
  (at level 61, c at next level, right associativity) : monad_scope.
Notation "c ;; k" := (bind c (fun _ => k))
  (at level 61, right associativity) : monad_scope.
Open Scope monad_scope.

Fixpoint for_each {A} (f : A -> M unit) (l : list A) : M unit :=
  match l with
  | [] => ret tt
  | x :: l' => f x ;; for_each f l'
  end.

Definition get_frame : M DataFrame := fun s => (inr (fst s), s).

Definition emit (lv : level) (m : string) : M unit :=
  fun s => (inr tt,
            (fst s, {| log := log (snd s) ++ [{| levelname := lv; message := m |}];
                       rng := rng (snd s);
                       trace := trace (snd s) |})).

Definition logging_debug := emit DEBUG.
Definition logging_warning := emit WARNING.
Definition logging_error := emit ERROR.

Definition note (ev : event) : M unit :=
  fun s => (inr tt,
            (fst s, {| log := log (snd s);
                       rng := rng (snd s);
                       trace := trace (snd s) ++ [ev] |})).

(** [data.at[i, col] = None] *)
Definition at_set_none (i : Z) (col : string) : M unit :=
  fun s => (inr tt, (at_set (fst s) i col VNone, snd s)).

(* ------------------------------------------------------------------ *)
(** ** Regular expressions

    [inject_nulls] hands the pattern to [Series.str.match], which compiles
    it with [re.compile] and applies [re.match] to the value.  The
    injector below is stated for any such matcher.  This module is a
    matcher for a fragment of Python's pattern syntax: literal characters,
    [.], [^], [$], the postfix operators star, plus and question mark, and
    alternation.  Groups, classes, escapes, counted, lazy and possessive
    repetition are outside the fragment. *)

Module Re.

Inductive atom : Type :=
| Lit (c : ascii)
| AnyChar           (** [.]: any character but a newline *)
| Bol               (** [^] *)
| Eol.              (** [$] *)

Inductive quant : Type := One | Opt | Star | Plus.

Definition piece : Type := (atom * quant)%type.

(** A pattern is an alternation of sequences of pieces. *)
Definition regex : Type := list (list piece).

Inductive parsed : Type :=
| Compiled (r : regex)
| Malformed (e : exn)   (** [re.compile] raises [re.error] *)
| Outside.              (** not in the fragment *)

Definition outside_char (c : ascii) : bool :=
  existsb (Ascii.eqb c) ["("; ")"; "["; "{"; "\"]%char.

Definition repeat_of (c : ascii) : option quant :=
  if Ascii.eqb c "*" then Some Star
  else if Ascii.eqb c "+" then Some Plus
  else if Ascii.eqb c "?" then Some Opt
  else None.

Definition atom_of (c : ascii) : atom :=
  if Ascii.eqb c "." then AnyChar
  else if Ascii.eqb c "^" then Bol
  else if Ascii.eqb c "$" then Eol
  else Lit c.

(** One left-to-right pass; [done] and [cur] hold the finished branches
    and the pieces of the current one, latest first. *)
Fixpoint parse (s : string) (pos : nat) (done : list (list piece))
         (cur : list piece) : parsed :=
  match s with
  | EmptyString => Compiled (rev (rev cur :: done))
  | String c s' =>
      if outside_char c then Outside
      else if Ascii.eqb c "|" then parse s' (S pos) (rev cur :: done) []
      else match repeat_of c with
           | Some q =>
               match cur with
               | [] => Malformed (re_error "nothing to repeat" pos)
               | (Bol, _) :: _ | (Eol, _) :: _ =>
                   Malformed (re_error "nothing to repeat" pos)
               | (a, One) :: cur' => parse s' (S pos) done ((a, q) :: cur')
               | (_, _) :: _ =>
                   match q with
                   | Star => Malformed (re_error "multiple repeat" pos)
                   | _ => Outside
                   end
               end
           | None => parse s' (S pos) done ((atom_of c, One) :: cur)
           end
  end.

(** [re.compile(pat)] *)
Definition compile (pat : string) : parsed := parse pat 0%nat [] [].

Definition newline : ascii := ascii_of_nat 10.

Definition takes (a : atom) (c : ascii) : bool :=
  match a with
  | Lit x => Ascii.eqb x c
  | AnyChar => negb (Ascii.eqb c newline)
  | Bol | Eol => false
  end.

(** [$] holds at the end of the string and before a final newline. *)
Definition at_end (s : string) : bool :=
  match s with
  | EmptyString => true
  | String c EmptyString => Ascii.eqb c newline
  | _ => false
  end.

(** One character taken by [a], then [next]. *)
Definition one (a : atom) (next : bool -> string -> bool) (s : string) : bool :=
  match s with
  | String c s' => takes a c && next false s'
  | EmptyString => false
  end.

(** Any number of characters taken by [a], then [next]. *)
Fixpoint many (a : atom) (next : bool -> string -> bool) (bos : bool)
         (s : string) : bool :=
  next bos s
  || match s with
     | String c s' => takes a c && many a next false s'
     | EmptyString => false
     end.

(** Can the pieces [ps] match at this position, [bos] telling whether it
    is the start of the string and [s] being the rest of it, so that what
    is left satisfies [k]? *)
Fixpoint run (k : string -> bool) (ps : list piece) (bos : bool) (s : string)
  : bool :=
  match ps with
  | [] => k s
  | (a, q) :: ps' =>
      match a with
      | Bol => bos && run k ps' bos s
      | Eol => at_end s && run k ps' bos s
      | _ =>
          match q with
          | One => one a (run k ps') s
          | Opt => one a (run k ps') s || run k ps' bos s
          | Star => many a (run k ps') bos s
          | Plus => one a (many a (run k ps')) s
          end
      end
  end.

(** What is left is exactly [v]. *)
Definition leaves (v : string) (rest : string) : bool := String.eqb rest v.

(** [re.match]: some branch matches starting at the first character. *)
Definition exec_match (r : regex) (s : string) : bool :=
  existsb (fun ps => run (fun _ => true) ps true s) r.

(** [re.fullmatch]: the match has to use the whole string. *)
Definition exec_fullmatch (r : regex) (s : string) : bool :=
  existsb (fun ps => run (leaves "") ps true s) r.

(** With [next] after it a matcher succeeds exactly when it stops at
    some [v] that [k] accepts. *)
Definition factors (next : bool -> string -> bool) (k : string -> bool)
           (nextv : string -> bool -> string -> bool) : Prop :=
  forall bos s,
    next bos s = true <-> exists v, nextv v bos s = true /\ k v = true.

(** [re.search]: the match may start at any position. *)
Fixpoint search_from (r : regex) (bos : bool) (s : string) : bool :=
  existsb (fun ps => run (fun _ => true) ps bos s) r
  || match s with
     | String _ s' => search_from r false s'
     | EmptyString => false
     end.

Definition exec_search (r : regex) (s : string) : bool := search_from r true s.

(** [bool(pd.Series(value).str.match(pattern)[0])] on the fragment. *)
Definition str_match (pattern value : string) : exn + bool :=
  match compile pattern with
  | Compiled r => inr (exec_match r value)
  | Malformed e => inl e
  | Outside => inl (NotImplementedError "pattern outside the modelled fragment")
  end.

End Re.

(* ------------------------------------------------------------------ *)
(** ** The null injector *)

Definition two53 : positive := 9007199254740992.

Definition replaced_message (index : Z) (col : string) : string :=
  "Replaced value at index " ++ Str.of_Z index
  ++ ", column '" ++ col ++ "' with None.".

Definition not_found_message (col : string) : string :=
  "Column '" ++ col ++ "' not found. Skipping.".

Definition failure_message (e : exn) : string :=
  "An error occurred during null injection: " ++ str_exn e.

(** [0.0 <= probability <= 1.0] *)
Definition in_unit_interval (probability : pyfloat) : bool :=
  float_le (Finite 0) probability && float_le probability (Finite 1).

(** Line 49: the column names the outer loop goes through. *)
Definition resolve (data : DataFrame) (columns_arg : option (list string))
  : list string :=
  match columns_arg with
  | None => columns data
  | Some l => map Str.strip l
  end.

Inductive outcome : Type :=
| Returned            (** [return data]: the object that was passed in *)
| Raised (e : exn).

(** What a call leaves behind: how it ended, the contents of the object
    passed as [data], and the world. *)
Record result : Type := {
  ended : outcome;
  data_after : pyobj;
  world_after : world
}.

Module Main.

Section Injector.

(** [bool(pd.Series(value).str.match(pattern)[0])]: the answer of the
    regular-expression library for a pattern and a string, an exception
    when it rejects the pattern. *)
Variable str_match : string -> string -> exn + bool.

(** The random source behind [random.random()]: its successive 53-bit
    outputs. *)
Variable mt : nat -> N.

(** The [n]-th output scaled into [0.0, 1.0). *)
Definition sample (n : nat) : pyfloat :=
  Finite (Z.of_N (mt n mod Npos two53) # two53).

(** [random.random()] *)
Definition random_random : M pyfloat :=
  fun s =>
    (inr (sample (rng (snd s))),
     (fst s, {| log := log (snd s);
                rng := S (rng (snd s));
                trace := trace (snd s) |})).

(** [pattern is None or (isinstance(value, str) and bool(...match...))] *)
Definition eligible (pattern : option string) (value : cell) : exn + bool :=
  match pattern with
  | None => inr true
  | Some pat =>
      match value with
      | VStr s => str_match pat s
      | _ => inr false
      end
  end.

(** The body of the inner loop, lines 56-59. *)
Definition cell_step (probability : pyfloat) (pattern : option string)
           (col : string) (iv : Z * cell) : M unit :=
  let '(index, value) := iv in
  note (Visit col index) ;;
  ok <- lift (eligible pattern value) ;;
  if ok then
    note (Draw col index) ;;
    r <- random_random ;;
    if float_lt r probability then
      at_set_none index col ;;
      logging_debug (replaced_message index col)
    else ret tt
  else ret tt.

(** The body of the outer loop, lines 51-59. *)
Definition column_step (probability : pyfloat) (pattern : option string)
           (col : string) : M unit :=
  data <- get_frame ;;
  if negb (mem_string col (columns data)) then
    logging_warning (not_found_message col)
  else
    match getitem data col with
    | None => raise (KeyError col)
    | Some cells =>
        for_each (cell_step probability pattern col) (items data cells)
    end.

(** Lines 49-59, the block under [try]. *)
Definition inject_body (probability : pyfloat) (pattern : option string)
           (columns_arg : option (list string)) : M unit :=
  data <- get_frame ;;
  for_each (column_step probability pattern) (resolve data columns_arg).

(** Lines 60-62. *)
Definition on_exception (e : exn) : M unit :=
  logging_error (failure_message e) ;;
  raise e.

(** [inject_nulls(data, probability, pattern, columns)] *)
Definition inject_nulls (data : pyobj) (probability : pyfloat)
           (pattern : option string) (columns_arg : option (list string))
           (w : world) : result :=
  match data with
  | PDataFrame df =>
      if negb (in_unit_interval probability) then
        {| ended := Raised (ValueError "Probability must be between 0.0 and 1.0.");
           data_after := data;
           world_after := w |}
      else
        let '(r, (df', w')) :=
          try_except (inject_body probability pattern columns_arg)
                     on_exception (df, w) in
        {| ended := match r with inl e => Raised e | inr _ => Returned end;
           data_after := PDataFrame df';
           world_after := w' |}
  | _ =>
      {| ended := Raised (TypeError "Input data must be a pandas DataFrame.");
         data_after := data;
         world_after := w |}
  end.

(** Line 88 of [main]: [args.columns.split(',') if args.columns else None] *)
Definition columns_of_arg (arg : option string) : option (list string) :=
  match arg with
  | None | Some EmptyString => None
  | Some s => Some (Str.split_comma s)
  end.

End Injector.

End Main.



(* ------------------------------------------------------------------ *)
(** ** Vocabulary of the properties

    Predicates on frames, patterns and traces in which the properties of
    [inject_nulls] are stated. *)

(** [isinstance(data, pd.DataFrame)] *)
Definition is_dataframe (data : pyobj) : bool :=
  match data with
  | PDataFrame _ => true
  | _ => false
  end.

(** In a frame that decays from another, every cell is as it was or has
    become null. *)
Definition decays (df df' : DataFrame) : Prop :=
  forall i c,
    at_get df' i c = at_get df i c
    \/ (at_get df' i c = Some VNone /\ at_get df i c <> None).

(** Every cell of the frame is the null marker. *)
Definition all_null (df : DataFrame) : Prop :=
  Forall (fun p => Forall (fun v => v = VNone) (snd p)) (series df).

(** The regular-expression library accepts the pattern: whatever the
    string, it answers instead of raising. *)
Definition accepts (str_match : string -> string -> exn + bool)
           (pattern : option string) : Prop :=
  forall pat, pattern = Some pat ->
  forall s, exists b, str_match pat s = inr b.

(** A string of whitespace only. *)
Fixpoint blank (s : string) : bool :=
  match s with
  | EmptyString => true
  | String c s' => Str.is_space c && blank s'
  end.

Definition starts_clean (s : string) : bool :=
  match s with
  | EmptyString => true
  | String c _ => negb (Str.is_space c)
  end.

Fixpoint ends_clean (s : string) : bool :=
  match s with
  | EmptyString => true
  | String c EmptyString => negb (Str.is_space c)
  | String _ s' => ends_clean s'
  end.

(** A string with no whitespace at either end. *)
Definition trimmed (s : string) : bool := starts_clean s && ends_clean s.

(** A name written with whitespace around it. *)
Record padded : Type := { before : string; name : string; after : string }.

Definition spelled (n : padded) : string := before n ++ name n ++ after n.

Definition well_padded (n : padded) : bool :=
  blank (before n) && trimmed (name n) && blank (after n).

(** The same state with [L] logged beforehand. *)
Definition with_log (L : list log_record) (s : state) : state :=
  (fst s, {| log := L ++ log (snd s);
             rng := rng (snd s);
             trace := trace (snd s) |}).

Definition not_found_record (col : string) : log_record :=
  {| levelname := WARNING; message := not_found_message col |}.

Definition is_visit (ev : event) : bool :=
  match ev with
  | Visit _ _ => true
  | Draw _ _ => false
  end.

(** The cells the inner loop was at, in the order of the trace. *)
Definition visits (tr : list event) : list event := filter is_visit tr.

(** The visits one pass over a column is to make: its rows in index
    order, none if the table has no such column. *)
Definition column_plan (df : DataFrame) (col : string) : list event :=
  if mem_string col (columns df) then map (Visit col) (index df) else [].

(** The visits a call is to make: the resolved names in order, the rows
    in index order within each. *)
Definition plan (df : DataFrame) (cols : list string) : list event :=
  flat_map (column_plan df) cols.

Definition event_eq_dec (a b : event) : {a = b} + {a <> b}.
Proof.
  decide equality; try apply Z.eq_dec; apply string_dec.
Defined.

Arguments event_eq_dec : simpl never.

(** How often an event occurs in a trace. *)
Definition times (ev : event) (tr : list event) : nat :=
  count_occ event_eq_dec tr ev.

(** Every draw follows the visit of its cell. *)
Definition paired (tr : list event) : Prop :=
  forall c i, (times (Draw c i) tr <= times (Visit c i) tr)%nat.

(** The visits of a loop are a beginning of what it was to visit, and
    all of it when the loop comes to its end. *)
Definition begins (planned : list event) (s : state) (res : (exn + unit) * state)
  : Prop :=
  exists seen rest,
    planned = seen ++ rest
    /\ visits (trace (snd (snd res))) = visits (trace (snd s)) ++ seen
    /\ (fst res = inr tt -> rest = []).

(** The value is a string that the pattern matches at its start. *)
Definition matched (str_match : string -> string -> exn + bool)
           (pat : string) (v : cell) : Prop :=
  exists s, v = VStr s /\ str_match pat s = inr true.

(** The regular-expression library rejects the pattern: whatever the
    string, it raises [e]. *)
Definition rejects (str_match : string -> string -> exn + bool)
           (pat : string) (e : exn) : Prop :=
  forall s, str_match pat s = inl e.

(** A cell differs from what it was in [df0] only if a number has been
    drawn for it. *)
Definition drawn_or_kept (df0 : DataFrame) (s : state) : Prop :=
  forall i c,
    at_get (fst s) i c = at_get df0 i c \/ In (Draw c i) (trace (snd s)).

(** Every number drawn is for a cell of a column that is gone through,
    and that was eligible in [df0]. *)
Definition draws_justified (str_match : string -> string -> exn + bool)
           (pat : option string) (df0 : DataFrame) (cs0 : list string)
           (tr : list event) : Prop :=
  forall c i,
    In (Draw c i) tr ->
    In c cs0 /\ exists v0, at_get df0 i c = Some v0
                            /\ Main.eligible str_match pat v0 = inr true.

Definition error_record (e : exn) : log_record :=
  {| levelname := ERROR; message := failure_message e |}.

(** *** Counting in traces and logs *)

Definition is_draw (ev : event) : bool :=
  match ev with
  | Draw _ _ => true
  | Visit _ _ => false
  end.

(** How many random numbers the trace records. *)
Definition draws (tr : list event) : nat := List.length (filter is_draw tr).

Definition is_warning (r : log_record) : bool :=
  match levelname r with
  | WARNING => true
  | _ => false
  end.

(** A record below error level that [inject_nulls] can emit. *)
Definition quiet (r : log_record) : Prop :=
  levelname r = DEBUG \/ levelname r = WARNING.

(** The name is not a column of the table. *)
Definition absent (df : DataFrame) (col : string) : bool :=
  negb (mem_string col (columns df)).

(** *** The table a given random stream produces *)

(** The cells of one column after a pass without pattern that starts at
    position [n] of the stream: the cell at row [k] is null if the sample
    at [n + k] is below the probability. *)
Fixpoint mask_cells (mt : nat -> N) (p : pyfloat) (n : nat) (cells : list cell)
  : list cell :=
  match cells with
  | [] => []
  | v :: vs =>
      (if float_lt (Main.sample mt n) p then VNone else v)
      :: mask_cells mt p (S n) vs
  end.

(** Column after column, each taking as many samples as there are rows. *)
Fixpoint mask_series (mt : nat -> N) (p : pyfloat) (n rows : nat)
         (ser : list (string * list cell)) : list (string * list cell) :=
  match ser with
  | [] => []
  | q :: rest =>
      (fst q, mask_cells mt p n (snd q))
      :: mask_series mt p (n + rows) rows rest
  end.

Definition masked (mt : nat -> N) (p : pyfloat) (n : nat) (df : DataFrame)
  : DataFrame :=
  {| index := index df;
     series := mask_series mt p n (List.length (index df)) (series df) |}.

(** [f] applied to the cells of the columns labelled [c]. *)
Definition update_col (c : string) (f : list cell -> list cell)
           (ser : list (string * list cell)) : list (string * list cell) :=
  map (fun q => if String.eqb (fst q) c then (fst q, f (snd q)) else q) ser.

(** The assignments of a pass over the rows [todo], from position [n]. *)
Fixpoint mask_labels (mt : nat -> N) (p : pyfloat) (labels : list Z) (n : nat)
         (todo : list Z) (cells : list cell) : list cell :=
  match todo with
  | [] => cells
  | l :: todo' =>
      mask_labels mt p labels (S n) todo'
        (if float_lt (Main.sample mt n) p
         then set_label labels l VNone cells else cells)
  end.

(** *** Comma-separated names *)

(** [",".join(pieces)] *)
Fixpoint join_comma (pieces : list string) : string :=
  match pieces with
  | [] => ""
  | x :: rest =>
      match rest with
      | [] => x
      | _ :: _ => x ++ String "," (join_comma rest)
      end
  end.

Fixpoint comma_free (s : string) : bool :=
  match s with
  | EmptyString => true
  | String c s' => negb (Ascii.eqb c ",") && comma_free s'
  end.

(* ------------------------------------------------------------------ *)
(** ** The driver, [main]

    [main] is modelled from the parsed arguments on.  The file system and
    the CSV reader and writer of pandas are its collaborators: what they
    answer is a parameter, that they are called is recorded. *)

Module Text.

(** [str.lower] on one character, for code points below 256. *)
Definition lower_char (c : ascii) : ascii :=
  let n := nat_of_ascii c in
  if ((65 <=? n) && (n <=? 90)
      || (192 <=? n) && (n <=? 222) && negb (n =? 215))%nat
  then ascii_of_nat (n + 32)
  else c.

(** [s.lower()] *)
Fixpoint lower (s : string) : string :=
  match s with
  | EmptyString => EmptyString
  | String c s' => String (lower_char c) (lower s')
  end.

(** [s.endswith(suffix)] *)
Fixpoint endswith (s suffix : string) : bool :=
  String.eqb s suffix
  || match s with
     | EmptyString => false
     | String _ s' => endswith s' suffix
     end.

End Text.

Module Cli.

(** The namespace [setup_argparse] returns. *)
Record Namespace : Type := {
  input_file : string;
  output_file : string;
  probability : pyfloat;
  pattern : option string;
  columns : option string
}.

End Cli.

(** The [except] clause of [main] that catches an exception: the first of
    [FileNotFoundError], [ValueError], [TypeError], [Exception] that its
    class is an instance of. *)
Inductive handler : Type :=
| ByFileNotFoundError
| ByValueError
| ByTypeError
| ByException.

(** An exception as [main] sees it: the clause that catches it and
    [str(e)].  Every instance of [Exception] is caught by one of the four;
    what is not one ([SystemExit], [KeyboardInterrupt]) is not modelled. *)
Record pyexc : Type := { caught : handler; text : string }.

(** The exceptions of [inject_nulls] among them. *)
Definition of_exn (e : exn) : pyexc :=
  {| caught := match e with
               | TypeError _ => ByTypeError
               | ValueError _ => ByValueError
               | KeyError _ | NotImplementedError _ | re_error _ _ =>
                   ByException
               end;
     text := str_exn e |}.

Inductive io_event : Type :=
| ReadCsv (path : string)                   (** [pd.read_csv(path)] *)
| ToCsv (df : DataFrame) (path : string).   (** [df.to_csv(path, index=False)] *)

Record process : Type := {
  outside : world;         (** log, random source, trace *)
  io : list io_event       (** calls to the reader and the writer *)
}.

Definition logging (lv : level) (m : string) (st : process) : process :=
  {| outside := {| log := log (outside st)
                          ++ [{| levelname := lv; message := m |}];
                   rng := rng (outside st);
                   trace := trace (outside st) |};
     io := io st |}.

Definition called (ev : io_event) (st : process) : process :=
  {| outside := outside st; io := io st ++ [ev] |}.

(** The prefix each clause of [main] logs before [str(e)]. *)
Definition report (h : handler) : string :=
  match h with
  | ByFileNotFoundError => "File error: "
  | ByValueError => "Value error: "
  | ByTypeError => "Type error: "
  | ByException => "An unexpected error occurred: "
  end.

Module Program.

Section Driver.

Variable str_match : string -> string -> exn + bool.
Variable mt : nat -> N.

(** [os.path.exists] *)
Variable os_path_exists : string -> bool.

(** [pd.read_csv]: the table in the file, or the exception raised. *)
Variable read_csv : string -> pyexc + DataFrame.

(** [DataFrame.to_csv(path, index=False)] *)
Variable to_csv : DataFrame -> string -> pyexc + unit.

(** Lines 71-99, the block under the outer [try], once the arguments are
    parsed. *)
Definition main_try (args : Cli.Namespace) (st : process)
  : (pyexc + unit) * process :=
  let input := Cli.input_file args in
  let output := Cli.output_file args in
  if negb (os_path_exists input) then
    (inl {| caught := ByFileNotFoundError;
            text := "Input file not found: " ++ input |}, st)
  else if negb (Text.endswith (Text.lower input) ".csv") then
    (inl {| caught := ByValueError;
            text := "Input file must be a CSV file." |}, st)
  else
    let st1 := called (ReadCsv input) st in
    match read_csv input with
    | inl e =>
        (inl e, logging ERROR ("Failed to read CSV file: " ++ text e) st1)
    | inr data =>
        let columns := Main.columns_of_arg (Cli.columns args) in
        let r := Main.inject_nulls str_match mt (PDataFrame data)
                   (Cli.probability args) (Cli.pattern args) columns
                   (outside st1) in
        let st2 := {| outside := world_after r; io := io st1 |} in
        match ended r, data_after r with
        | Raised e, _ => (inl (of_exn e), st2)
        | Returned, PDataFrame masked_data =>
            let st3 := called (ToCsv masked_data output) st2 in
            match to_csv masked_data output with
            | inl e =>
                (inl e,
                 logging ERROR ("Failed to write CSV file: " ++ text e) st3)
            | inr _ =>
                (inr tt, logging INFO ("Masked data saved to: " ++ output) st3)
            end
        | Returned, _ =>
            (* not reached: [inject_nulls] returns the object it is given *)
            (inl {| caught := ByException;
                    text := "object has no attribute 'to_csv'" |}, st2)
        end
    end.

(** [main()], lines 70-108. *)
Definition main (args : Cli.Namespace) (st : process)
  : (pyexc + unit) * process :=
  match main_try args st with
  | (inl e, st') =>
      (inr tt, logging ERROR (report (caught e) ++ text e) st')
  | r => r
  end.

End Driver.

End Program.

(** *** Sample data *)

Module Sample.

Definition world0 : world := {| log := []; rng := 0%nat; trace := [] |}.

(** A source that always answers [k]. *)
Definition steady (k : N) : nat -> N := fun _ => k.

Definition fruit : DataFrame :=
  {| index := [0; 1; 2];
     series := [("name", [VStr "apple"; VStr "banana"; VStr "avocado"])] |}.

Definition abc : DataFrame :=
  {| index := [0; 1];
     series := [("A", [VStr "x"; VNum 1]);
                ("B", [VNum 2; VStr "y"]);
                ("C", [VBool true; VNone])] |}.

Definition ab : DataFrame :=
  {| index := [0; 1];
     series := [("A", [VStr "x"; VNum 1]); ("B", [VNum 2; VStr "y"])] |}.

Definition one : DataFrame :=
  {| index := [0]; series := [("A", [VStr "x"])] |}.

End Sample.

(** *** A sample run of the driver *)

Module Demo.

Definition args : Cli.Namespace :=
  {| Cli.input_file := "in.CSV";
     Cli.output_file := "out.csv";
     Cli.probability := Finite 1;
     Cli.pattern := None;
     Cli.columns := Some "A, Q" |}.

Definition start : process := {| outside := Sample.world0; io := [] |}.

(** Every path exists and holds the table [Sample.ab]; writing works. *)
Definition any_path (path : string) : bool := true.
Definition reader (path : string) : pyexc + DataFrame := inr Sample.ab.
Definition writer (df : DataFrame) (path : string) : pyexc + unit := inr tt.

(** A disk that is full. *)
Definition full (df : DataFrame) (path : string) : pyexc + unit :=
  inl {| caught := ByException; text := "No space left on device" |}.

Definition masked_ab : DataFrame :=
  {| index := [0; 1];
     series := [("A", [VNone; VNone]); ("B", [VNum 2; VStr "y"])] |}.

End Demo.


(* ------------------------------------------------------------------ *)
(** ** The matcher of the fragment looks at the start of the string *)

Lemma one_factors (a : Re.atom) (next : bool -> string -> bool)
      (k : string -> bool) (nextv : string -> bool -> string -> bool) :
  Re.factors next k nextv ->
  forall s, Re.one a next s = true
            <-> exists v, Re.one a (nextv v) s = true /\ k v = true.
Proof.
  unfold Re.factors. intros H [|c s]; simpl.
  - split; [discriminate | intros [v [E _]]; discriminate].
  - rewrite andb_true_iff, H. split.
    + intros [Ht [v [E1 E2]]]. exists v. rewrite Ht, E1. auto.
    + intros [v [E1 E2]]. apply andb_true_iff in E1. destruct E1.
      split; eauto.
Qed.

Lemma many_factors (a : Re.atom) (next : bool -> string -> bool)
      (k : string -> bool) (nextv : string -> bool -> string -> bool) :
  Re.factors next k nextv ->
  Re.factors (Re.many a next) k (fun v => Re.many a (nextv v)).
Proof.
  unfold Re.factors. intros H bos s. revert bos.
  induction s as [|c s IH]; intros bos; simpl.
  - rewrite !orb_false_r. rewrite H. split; intros [v [E1 E2]]; exists v.
    + rewrite orb_false_r. auto.
    + rewrite orb_false_r in E1. auto.
  - rewrite orb_true_iff, andb_true_iff, H, IH. split.
    + intros [[v [E1 E2]]|[Ht [v [E1 E2]]]]; exists v.
      * rewrite E1. auto.
      * rewrite Ht, E1, orb_true_r. auto.
    + intros [v [E1 E2]]. apply orb_true_iff in E1.
      destruct E1 as [E1|E1]; [left; eauto|].
      apply andb_true_iff in E1. destruct E1. right. eauto.
Qed.

Lemma run_factors (k : string -> bool) (ps : list Re.piece) :
  Re.factors (Re.run k ps) k (fun v => Re.run (Re.leaves v) ps).
Proof.
  induction ps as [|[a q] ps IH]; intros bos s.
  - simpl. unfold Re.leaves. split.
    + intros H. exists s. now rewrite String.eqb_refl.
    + intros [v [E1 E2]]. apply String.eqb_eq in E1. now subst.
  - assert (Hand : forall b : bool,
               b && Re.run k ps bos s = true
               <-> exists v, b && Re.run (Re.leaves v) ps bos s = true
                             /\ k v = true).
    { intros b. rewrite andb_true_iff, (IH bos s). split.
      - intros [Hb [v [E1 E2]]]. exists v. rewrite Hb, E1. auto.
      - intros [v [E1 E2]]. apply andb_true_iff in E1. destruct E1. eauto. }
    assert (Hq : match q with
                 | Re.One => Re.one a (Re.run k ps) s
                 | Re.Opt => Re.one a (Re.run k ps) s || Re.run k ps bos s
                 | Re.Star => Re.many a (Re.run k ps) bos s
                 | Re.Plus => Re.one a (Re.many a (Re.run k ps)) s
                 end = true
                 <-> exists v,
                   match q with
                   | Re.One => Re.one a (Re.run (Re.leaves v) ps) s
                   | Re.Opt => Re.one a (Re.run (Re.leaves v) ps) s
                               || Re.run (Re.leaves v) ps bos s
                   | Re.Star => Re.many a (Re.run (Re.leaves v) ps) bos s
                   | Re.Plus => Re.one a (Re.many a (Re.run (Re.leaves v) ps)) s
                   end = true /\ k v = true).
    { destruct q.
      - now apply one_factors.
      - rewrite orb_true_iff, (one_factors a _ _ _ IH s), (IH bos s). split.
        + intros [[v [E1 E2]]|[v [E1 E2]]]; exists v; rewrite E1;
            auto using orb_true_r.
        + intros [v [E1 E2]]. apply orb_true_iff in E1.
          destruct E1; eauto.
      - now apply many_factors.
      - apply one_factors. now apply many_factors. }
    destruct a; simpl; auto.
Qed.

Lemma one_suffix (a : Re.atom) (next : bool -> string -> bool) (v s : string) :
  (forall bos s, next bos s = true -> exists u, s = (u ++ v)%string) ->
  Re.one a next s = true -> exists u, s = (u ++ v)%string.
Proof.
  intros H. destruct s as [|c s]; simpl; [discriminate|].
  intros E. apply andb_true_iff in E. destruct E as [_ E].
  destruct (H _ _ E) as [u ->]. now exists (String c u).
Qed.

Lemma many_suffix (a : Re.atom) (next : bool -> string -> bool) (v : string) :
  (forall bos s, next bos s = true -> exists u, s = (u ++ v)%string) ->
  forall bos s, Re.many a next bos s = true -> exists u, s = (u ++ v)%string.
Proof.
  intros H bos s. revert bos. induction s as [|c s IH]; intros bos; simpl;
    intros E; apply orb_true_iff in E; destruct E as [E|E];
    eauto; try discriminate.
  apply andb_true_iff in E. destruct E as [_ E].
  destruct (IH _ E) as [u ->]. now exists (String c u).
Qed.

Lemma run_suffix (v : string) (ps : list Re.piece) :
  forall bos s,
    Re.run (Re.leaves v) ps bos s = true -> exists u, s = (u ++ v)%string.
Proof.
  induction ps as [|[a q] ps IH]; intros bos s.
  - simpl. unfold Re.leaves. intros E. apply String.eqb_eq in E. subst.
    now exists "".
  - assert (Hq : match q with
                 | Re.One => Re.one a (Re.run (Re.leaves v) ps) s
                 | Re.Opt => Re.one a (Re.run (Re.leaves v) ps) s
                             || Re.run (Re.leaves v) ps bos s
                 | Re.Star => Re.many a (Re.run (Re.leaves v) ps) bos s
                 | Re.Plus => Re.one a (Re.many a (Re.run (Re.leaves v) ps)) s
                 end = true -> exists u, s = (u ++ v)%string).
    { destruct q.
      - now apply one_suffix.
      - intros E. apply orb_true_iff in E. destruct E as [E|E]; eauto.
        revert E. now apply one_suffix.
      - now apply many_suffix.
      - apply one_suffix. now apply many_suffix. }
    destruct a; simpl; auto; intros E; apply andb_true_iff in E;
      destruct E as [_ E]; eauto.
Qed.

(** [re.match] succeeds exactly when a branch of the pattern, started at
    the first character, takes some beginning [u] of the string; the rest
    [v] may be anything, whereas [re.fullmatch] wants it empty. *)
Lemma exec_match_prefix (r : Re.regex) (s : string) :
  Re.exec_match r s = true
  <-> exists u v,
        s = (u ++ v)%string
        /\ existsb (fun ps => Re.run (Re.leaves v) ps true s) r = true.
Proof.
  unfold Re.exec_match. rewrite existsb_exists. split.
  - intros [ps [Hin H]]. apply (run_factors (fun _ => true) ps) in H.
    destruct H as [v [H _]]. destruct (run_suffix _ _ _ _ H) as [u E].
    exists u, v. split; [assumption|]. apply existsb_exists. eauto.
  - intros [u [v [_ H]]]. apply existsb_exists in H.
    destruct H as [ps [Hin H]]. exists ps. split; [assumption|].
    apply (run_factors (fun _ => true) ps). eauto.
Qed.

Lemma exec_fullmatch_match (r : Re.regex) (s : string) :
  Re.exec_fullmatch r s = true -> Re.exec_match r s = true.
Proof.
  intros H. apply exec_match_prefix. exists s, "". split.
  - clear. induction s as [|c s IH]; simpl; [reflexivity | now rewrite <- IH].
  - exact H.
Qed.

(* ------------------------------------------------------------------ *)
(** ** Labels, membership and the shape of a frame *)

Lemma mem_string_In (x : string) (l : list string) :
  mem_string x l = true <-> In x l.
Proof.
  induction l as [|y l IH]; simpl.
  - split; [discriminate | tauto].
  - rewrite orb_true_iff, IH, String.eqb_eq. intuition congruence.
Qed.

Lemma mem_Z_In (x : Z) (l : list Z) : mem_Z x l = true <-> In x l.
Proof.
  induction l as [|y l IH]; simpl.
  - split; [discriminate | tauto].
  - rewrite orb_true_iff, IH, Z.eqb_eq. intuition congruence.
Qed.

Lemma nodup_string_NoDup (l : list string) :
  nodup_string l = true <-> NoDup l.
Proof.
  induction l as [|x l IH]; simpl.
  - split; [constructor | reflexivity].
  - rewrite andb_true_iff, negb_true_iff, IH. split.
    + intros [Hx Hl]. constructor; [|assumption].
      rewrite <- mem_string_In. congruence.
    + intros H. inversion H as [|? ? Hx Hl]; subst. split; [|assumption].
      destruct (mem_string x l) eqn:E; [|reflexivity].
      apply mem_string_In in E. contradiction.
Qed.

Lemma nodup_Z_NoDup (l : list Z) : nodup_Z l = true <-> NoDup l.
Proof.
  induction l as [|x l IH]; simpl.
  - split; [constructor | reflexivity].
  - rewrite andb_true_iff, negb_true_iff, IH. split.
    + intros [Hx Hl]. constructor; [|assumption].
      rewrite <- mem_Z_In. congruence.
    + intros H. inversion H as [|? ? Hx Hl]; subst. split; [|assumption].
      destruct (mem_Z x l) eqn:E; [|reflexivity].
      apply mem_Z_In in E. contradiction.
Qed.

Lemma shape_index (df df' : DataFrame) :
  shape df' = shape df -> index df' = index df.
Proof. unfold shape. congruence. Qed.

Lemma shape_columns (df df' : DataFrame) :
  shape df' = shape df -> columns df' = columns df.
Proof.
  unfold shape, columns. intros H.
  assert (E : map fst (map (fun p : string * list cell =>
                              (fst p, List.length (snd p))) (series df'))
              = map fst (map (fun p : string * list cell =>
                                (fst p, List.length (snd p))) (series df)))
    by congruence.
  rewrite !map_map in E. exact E.
Qed.

Lemma shape_wf (df df' : DataFrame) :
  shape df' = shape df -> wf_frame df' = wf_frame df.
Proof.
  intros H. unfold wf_frame.
  rewrite (shape_columns _ _ H), (shape_index _ _ H). f_equal.
  assert (E : forall (n : nat) (l : list (string * list cell)),
             forallb (fun p => Nat.eqb (List.length (snd p)) n) l
             = forallb (fun q : string * nat => Nat.eqb (snd q) n)
                 (map (fun p => (fst p, List.length (snd p))) l)).
  { intros n l. induction l as [|p l IH]; simpl; [reflexivity|]. now rewrite IH. }
  rewrite !E. unfold shape in H. congruence.
Qed.

Lemma set_label_length (ls : list Z) (i : Z) (v : cell) (cells : list cell) :
  List.length (set_label ls i v cells) = List.length cells.
Proof.
  revert cells. induction ls as [|l ls IH]; intros [|x xs]; simpl; auto.
Qed.

Lemma shape_at_set (df : DataFrame) (i : Z) (c : string) (v : cell) :
  shape (at_set df i c v) = shape df.
Proof.
  unfold shape, at_set. simpl. f_equal. rewrite map_map.
  apply map_ext. intros [name cells]. simpl.
  destruct (String.eqb name c); simpl; [|reflexivity].
  now rewrite set_label_length.
Qed.

(** *** Reading a cell after an assignment *)

Lemma getitem_at_set (df : DataFrame) (i : Z) (c c' : string) (v : cell) :
  getitem (at_set df i c v) c'
  = option_map (fun cells => if String.eqb c' c
                             then set_label (index df) i v cells else cells)
      (getitem df c').
Proof.
  unfold getitem, at_set. simpl. generalize (index df) as ls. intros ls.
  induction (series df) as [|[name cells] l IH]; simpl; [reflexivity|].
  destruct (String.eqb name c) eqn:Ec; simpl.
  - destruct (String.eqb name c') eqn:Ec'; simpl; [|exact IH].
    apply String.eqb_eq in Ec, Ec'. subst. now rewrite String.eqb_refl.
  - destruct (String.eqb name c') eqn:Ec'; simpl; [|exact IH].
    apply String.eqb_eq in Ec'. subst. now rewrite Ec.
Qed.

Lemma lookup_set_label (ls : list Z) (i i' : Z) (v : cell) (cells : list cell) :
  lookup_label ls i' (set_label ls i v cells)
  = if Z.eqb i' i
    then option_map (fun _ => v) (lookup_label ls i' cells)
    else lookup_label ls i' cells.
Proof.
  revert cells. induction ls as [|l ls IH]; intros [|x xs]; simpl;
    try (destruct (Z.eqb i' i); reflexivity).
  destruct (Z.eqb l i') eqn:E1.
  - apply Z.eqb_eq in E1. subst l. rewrite (Z.eqb_sym i' i).
    destruct (Z.eqb i i'); reflexivity.
  - apply IH.
Qed.

Lemma at_get_at_set (df : DataFrame) (i i' : Z) (c c' : string) (v : cell) :
  at_get (at_set df i c v) i' c'
  = if String.eqb c' c && Z.eqb i' i
    then option_map (fun _ => v) (at_get df i' c')
    else at_get df i' c'.
Proof.
  unfold at_get. rewrite getitem_at_set.
  destruct (getitem df c') as [cells|]; simpl.
  - change (index (at_set df i c v)) with (index df).
    destruct (String.eqb c' c); simpl; [apply lookup_set_label|].
    reflexivity.
  - destruct (String.eqb c' c && Z.eqb i' i); reflexivity.
Qed.

Lemma getitem_mem (df : DataFrame) (c : string) :
  mem_string c (columns df) = true ->
  exists cells, getitem df c = Some cells /\ In (c, cells) (series df).
Proof.
  unfold getitem, columns.
  induction (series df) as [|[name cells] l IH]; simpl; [discriminate|].
  rewrite String.eqb_sym. destruct (String.eqb name c) eqn:E.
  - intros _. apply String.eqb_eq in E. subst. eauto.
  - simpl. intros H. destruct (IH H) as [cs [H1 H2]]. eauto.
Qed.

Lemma getitem_In (df : DataFrame) (c : string) (cells : list cell) :
  getitem df c = Some cells -> In (c, cells) (series df).
Proof.
  unfold getitem.
  induction (series df) as [|[name cs] l IH]; simpl; [discriminate|].
  destruct (String.eqb name c) eqn:E.
  - apply String.eqb_eq in E. intros H. injection H as <-. subst. now left.
  - intros H. right. auto.
Qed.

Lemma getitem_unique (df : DataFrame) (c : string) (cells : list cell) :
  NoDup (columns df) -> In (c, cells) (series df) -> getitem df c = Some cells.
Proof.
  unfold getitem, columns.
  induction (series df) as [|[name cs] l IH]; simpl; [tauto|].
  intros Hnd Hin. inversion Hnd as [|? ? Hx Hl]; subst.
  destruct Hin as [Heq|Hin].
  - injection Heq as -> ->. now rewrite String.eqb_refl.
  - destruct (String.eqb name c) eqn:E.
    + apply String.eqb_eq in E. subst. exfalso. apply Hx.
      change c with (fst (c, cells)). now apply in_map.
    + auto.
Qed.

(* ------------------------------------------------------------------ *)
(** ** Reasoning about a run *)

Lemma sample_lt_one (mt : nat -> N) (k : nat) :
  float_lt (Main.sample mt k) (Finite 1) = true.
Proof.
  unfold Main.sample. generalize (mt k). intros n. unfold float_lt, Qltb, Qle_bool. simpl Qnum. simpl Qden.
  apply negb_true_iff, Z.leb_gt.
  assert (H : (n mod Npos two53 < Npos two53)%N) by (apply N.mod_lt; discriminate).
  apply N2Z.inj_lt in H. revert H.
  generalize (Z.of_N (n mod Npos two53)). intros z H.
  change (Z.of_N (Npos two53)) with (Z.pos two53) in H. lia.
Qed.

Lemma sample_not_lt_zero (mt : nat -> N) (k : nat) :
  float_lt (Main.sample mt k) (Finite 0) = false.
Proof.
  unfold Main.sample. generalize (mt k). intros n. unfold float_lt, Qltb, Qle_bool. simpl Qnum. simpl Qden.
  apply negb_false_iff, Z.leb_le.
  pose proof (N2Z.is_nonneg (n mod Npos two53)) as H. revert H.
  generalize (Z.of_N (n mod Npos two53)). intros z H. lia.
Qed.

Arguments float_lt : simpl never.
Arguments float_le : simpl never.
Arguments at_set : simpl never.

Section Runs.

Variable str_match : string -> string -> exn + bool.
Variable mt : nat -> N.

Local Abbreviation cell_step := (Main.cell_step str_match mt).
Local Abbreviation column_step := (Main.column_step str_match mt).
Local Abbreviation inject_body := (Main.inject_body str_match mt).
Local Abbreviation inject_nulls := (Main.inject_nulls str_match mt).
Local Abbreviation eligible := (Main.eligible str_match).

Local Abbreviation sample := (Main.sample mt).

(** One iteration of the inner loop, case by case. *)
Lemma cell_step_eq (p : pyfloat) (pat : option string) (c : string)
      (i : Z) (v : cell) (df : DataFrame) (w : world) :
  cell_step p pat c (i, v) (df, w)
  = match eligible pat v with
    | inl e =>
        (inl e, (df, {| log := log w; rng := rng w;
                        trace := trace w ++ [Visit c i] |}))
    | inr false =>
        (inr tt, (df, {| log := log w; rng := rng w;
                         trace := trace w ++ [Visit c i] |}))
    | inr true =>
        if float_lt (sample (rng w)) p
        then (inr tt, (at_set df i c VNone,
                       {| log := log w ++ [{| levelname := DEBUG;
                                       message := replaced_message i c |}];
                          rng := S (rng w);
                          trace := (trace w ++ [Visit c i]) ++ [Draw c i] |}))
        else (inr tt, (df, {| log := log w; rng := S (rng w);
                              trace := (trace w ++ [Visit c i]) ++ [Draw c i] |}))
    end.
Proof.
  unfold Main.cell_step, bind, note, lift, Main.random_random. simpl.
  destruct (eligible pat v) as [e|[|]]; simpl; try reflexivity.
  match goal with |- context [float_lt ?r p] => destruct (float_lt r p) end;
    reflexivity.
Qed.

(** A relation between the state before and after that every iteration
    respects, and that does not look at the log, holds across the loops. *)
Section Rel.

Variable R : state -> state -> Prop.
Hypothesis R_refl : forall s, R s s.
Hypothesis R_trans : forall s1 s2 s3, R s1 s2 -> R s2 s3 -> R s1 s3.

Lemma for_each_rel (A : Type) (f : A -> M unit) (l : list A) :
  (forall x s, In x l -> R s (snd (f x s))) ->
  forall s, R s (snd (for_each f l s)).
Proof.
  induction l as [|x l IH]; intros Hf s; simpl.
  - apply R_refl.
  - unfold bind. pose proof (Hf x s (or_introl eq_refl)) as H1.
    destruct (f x s) as [[e|[]] s1]; simpl in *; [assumption|].
    eapply R_trans; [exact H1|]. apply IH. intros y t Hy. apply Hf. now right.
Qed.

Hypothesis R_log :
  forall s L, R s (fst s, {| log := L; rng := rng (snd s);
                            trace := trace (snd s) |}).

Variable p : pyfloat.
Variable pat : option string.

Lemma column_step_rel (c : string) :
  (forall iv s, R s (snd (cell_step p pat c iv s))) ->
  forall s, R s (snd (column_step p pat c s)).
Proof.
  intros Hc s. unfold Main.column_step, bind, get_frame. simpl.
  destruct (mem_string c (columns (fst s))); simpl.
  - destruct (getitem (fst s) c) as [cells|]; simpl.
    + apply for_each_rel. intros. apply Hc.
    + apply R_refl.
  - apply R_log.
Qed.

Lemma columns_loop_rel (cs : list string) :
  (forall c iv s, In c cs -> R s (snd (cell_step p pat c iv s))) ->
  forall s, R s (snd (for_each (column_step p pat) cs s)).
Proof.
  intros Hc. apply for_each_rel. intros c s Hin.
  apply column_step_rel. intros. now apply Hc.
Qed.

End Rel.

(** How a call with valid arguments ends, from how the block under [try]
    ends. *)
Lemma inject_nulls_run (df : DataFrame) (p : pyfloat) (pat : option string)
      (cols : option (list string)) (w : world) :
  in_unit_interval p = true ->
  inject_nulls (PDataFrame df) p pat cols w
  = match inject_body p pat cols (df, w) with
    | (inr _, s') =>
        {| ended := Returned;
           data_after := PDataFrame (fst s');
           world_after := snd s' |}
    | (inl e, s') =>
        {| ended := Raised e;
           data_after := PDataFrame (fst s');
           world_after := {| log := log (snd s')
                                    ++ [{| levelname := ERROR;
                                           message := failure_message e |}];
                             rng := rng (snd s');
                             trace := trace (snd s') |} |}
    end.
Proof.
  intros Hp. unfold Main.inject_nulls. rewrite Hp. simpl.
  unfold try_except.
  destruct (inject_body p pat cols (df, w)) as [[e|u] [df' w']]; reflexivity.
Qed.

Lemma inject_body_eq (p : pyfloat) (pat : option string)
      (cols : option (list string)) (s : state) :
  inject_body p pat cols s
  = for_each (column_step p pat) (resolve (fst s) cols) s.
Proof. reflexivity. Qed.

End Runs.

(* ------------------------------------------------------------------ *)
(** ** What a run does to the frame *)

Lemma decays_refl (df : DataFrame) : decays df df.
Proof. intros i c. now left. Qed.

Lemma decays_trans (d1 d2 d3 : DataFrame) :
  decays d1 d2 -> decays d2 d3 -> decays d1 d3.
Proof.
  intros H12 H23 i c.
  destruct (H23 i c) as [E|[E N]]; destruct (H12 i c) as [E'|[E' N']].
  - left. congruence.
  - right. split; [congruence | assumption].
  - right. split; [assumption | congruence].
  - right. split; assumption.
Qed.

Lemma decays_at_set (df : DataFrame) (i : Z) (c : string) :
  decays df (at_set df i c VNone).
Proof.
  intros i' c'. rewrite at_get_at_set.
  destruct (String.eqb c' c && Z.eqb i' i); [|now left].
  destruct (at_get df i' c') as [v|]; simpl; [|now left].
  right. split; [reflexivity | discriminate].
Qed.

Lemma decays_none (df df' : DataFrame) (i : Z) (c : string) :
  decays df df' -> at_get df i c = Some VNone -> at_get df' i c = Some VNone.
Proof. intros H E. destruct (H i c) as [E'|[E' _]]; congruence. Qed.

Lemma decays_defined (df df' : DataFrame) (i : Z) (c : string) :
  decays df df' -> at_get df i c <> None -> at_get df' i c <> None.
Proof. intros H E. destruct (H i c) as [E'|[E' _]]; congruence. Qed.

Lemma getitem_at_set_other (df : DataFrame) (i : Z) (c c' : string) (v : cell) :
  c' <> c -> getitem (at_set df i c v) c' = getitem df c'.
Proof.
  intros H. rewrite getitem_at_set.
  apply String.eqb_neq in H. rewrite H.
  destruct (getitem df c'); reflexivity.
Qed.

Section Frames.

Variable str_match : string -> string -> exn + bool.
Variable mt : nat -> N.

Local Abbreviation cell_step := (Main.cell_step str_match mt).
Local Abbreviation column_step := (Main.column_step str_match mt).
Local Abbreviation inject_body := (Main.inject_body str_match mt).
Local Abbreviation inject_nulls := (Main.inject_nulls str_match mt).
Local Abbreviation eligible := (Main.eligible str_match).
Local Abbreviation accepts := (accepts str_match).

Variable p : pyfloat.
Variable pat : option string.

(** An iteration leaves the frame as it is or assigns null to its cell. *)
Lemma cell_step_frame (c : string) (iv : Z * cell) (s : state) :
  fst (snd (cell_step p pat c iv s)) = fst s
  \/ fst (snd (cell_step p pat c iv s)) = at_set (fst s) (fst iv) c VNone.
Proof.
  destruct iv as [i v], s as [df w]. rewrite cell_step_eq.
  destruct (eligible pat v) as [e|[|]]; simpl; auto.
  destruct (float_lt _ p); simpl; auto.
Qed.

Lemma cell_step_shape (c : string) (iv : Z * cell) (s : state) :
  shape (fst (snd (cell_step p pat c iv s))) = shape (fst s).
Proof.
  destruct (cell_step_frame c iv s) as [E|E]; rewrite E;
    [reflexivity | apply shape_at_set].
Qed.

Lemma cell_step_decays (c : string) (iv : Z * cell) (s : state) :
  decays (fst s) (fst (snd (cell_step p pat c iv s))).
Proof.
  destruct (cell_step_frame c iv s) as [E|E]; rewrite E;
    [apply decays_refl | apply decays_at_set].
Qed.

Lemma cell_step_keep (c c' : string) (iv : Z * cell) (s : state) :
  c' <> c ->
  getitem (fst (snd (cell_step p pat c iv s))) c' = getitem (fst s) c'.
Proof.
  intros H. destruct (cell_step_frame c iv s) as [E|E]; rewrite E;
    [reflexivity | now apply getitem_at_set_other].
Qed.

Lemma loop_shape (cs : list string) (s : state) :
  shape (fst (snd (for_each (column_step p pat) cs s))) = shape (fst s).
Proof.
  apply columns_loop_rel with
    (R := fun s s' => shape (fst s') = shape (fst s));
    try (intros; simpl; congruence).
  intros. apply cell_step_shape.
Qed.

Lemma loop_decays (cs : list string) (s : state) :
  decays (fst s) (fst (snd (for_each (column_step p pat) cs s))).
Proof.
  apply columns_loop_rel with
    (R := fun s s' => decays (fst s) (fst s')).
  - intros. apply decays_refl.
  - intros s1 s2 s3. apply decays_trans.
  - intros s1 L. apply decays_refl.
  - intros. apply cell_step_decays.
Qed.

Lemma inner_shape (c : string) (ivs : list (Z * cell)) (s : state) :
  shape (fst (snd (for_each (cell_step p pat c) ivs s))) = shape (fst s).
Proof.
  apply for_each_rel with (R := fun s s' => shape (fst s') = shape (fst s));
    try congruence.
  intros. apply cell_step_shape.
Qed.

Lemma inner_decays (c : string) (ivs : list (Z * cell)) (s : state) :
  decays (fst s) (fst (snd (for_each (cell_step p pat c) ivs s))).
Proof.
  apply for_each_rel with (R := fun s s' => decays (fst s) (fst s')).
  - intros. apply decays_refl.
  - intros s1 s2 s3. apply decays_trans.
  - intros. apply cell_step_decays.
Qed.

Lemma column_step_shape (c : string) (s : state) :
  shape (fst (snd (column_step p pat c s))) = shape (fst s).
Proof.
  apply column_step_rel with
    (R := fun s s' => shape (fst s') = shape (fst s));
    try (intros; simpl; congruence).
  intros. apply cell_step_shape.
Qed.

Lemma column_step_decays (c : string) (s : state) :
  decays (fst s) (fst (snd (column_step p pat c s))).
Proof.
  apply column_step_rel with (R := fun s s' => decays (fst s) (fst s')).
  - intros. apply decays_refl.
  - intros s1 s2 s3. apply decays_trans.
  - intros s1 L. apply decays_refl.
  - intros. apply cell_step_decays.
Qed.

Lemma column_step_keep (c c' : string) (s : state) :
  c' <> c ->
  getitem (fst (snd (column_step p pat c s))) c' = getitem (fst s) c'.
Proof.
  intros H.
  apply column_step_rel with
    (R := fun s s' => getitem (fst s') c' = getitem (fst s) c');
    try (intros; simpl; congruence).
  intros. now apply cell_step_keep.
Qed.

(** A column that the loop does not go through keeps its cells. *)
Lemma loop_keep (cs : list string) (c' : string) (s : state) :
  ~ In c' cs ->
  getitem (fst (snd (for_each (column_step p pat) cs s))) c'
  = getitem (fst s) c'.
Proof.
  intros Hc.
  apply columns_loop_rel with
    (R := fun s s' => getitem (fst s') c' = getitem (fst s) c');
    try (intros; simpl; congruence).
  intros c iv s0 Hin. apply cell_step_keep. congruence.
Qed.

End Frames.

(** *** When the run returns, and the two certain probabilities *)

Lemma for_each_cons (A : Type) (f : A -> M unit) (x : A) (l : list A)
      (s : state) :
  for_each f (x :: l) s
  = match f x s with
    | (inr _, s') => for_each f l s'
    | (inl e, s') => (inl e, s')
    end.
Proof. reflexivity. Qed.

Lemma for_each_returns (A : Type) (f : A -> M unit) (l : list A) :
  (forall x s, fst (f x s) = inr tt) ->
  forall s, fst (for_each f l s) = inr tt.
Proof.
  intros Hf. induction l as [|x l IH]; intros s; simpl; [reflexivity|].
  unfold bind. pose proof (Hf x s) as H.
  destruct (f x s) as [[e|[]] s1]; simpl in *; [discriminate | apply IH].
Qed.

Lemma lookup_label_In (ls : list Z) (i : Z) (cells : list cell) (v : cell) :
  lookup_label ls i cells = Some v -> In (i, v) (combine ls cells).
Proof.
  revert cells. induction ls as [|l ls IH]; intros [|x xs]; simpl;
    try discriminate.
  destruct (Z.eqb l i) eqn:E.
  - apply Z.eqb_eq in E. intros H. injection H as ->. subst. now left.
  - intros H. right. auto.
Qed.

Lemma In_lookup_label (ls : list Z) (i : Z) (cells : list cell) (v : cell) :
  NoDup ls -> In (i, v) (combine ls cells) -> lookup_label ls i cells = Some v.
Proof.
  revert cells. induction ls as [|l ls IH]; intros [|x xs] Hnd; simpl;
    try tauto.
  inversion Hnd as [|? ? Hl Hls]; subst. intros [H|H].
  - injection H as -> ->. now rewrite Z.eqb_refl.
  - destruct (Z.eqb l i) eqn:E.
    + apply Z.eqb_eq in E. subst. exfalso. apply Hl.
      apply in_combine_l in H. exact H.
    + auto.
Qed.

Lemma lookup_label_defined (ls : list Z) (i : Z) (cells : list cell) :
  List.length cells = List.length ls -> In i ls ->
  lookup_label ls i cells <> None.
Proof.
  revert cells. induction ls as [|l ls IH]; intros [|x xs]; simpl;
    try discriminate; try tauto.
  intros Hlen Hin. destruct (Z.eqb l i) eqn:E; [discriminate|].
  apply IH; [lia|]. destruct Hin as [->|Hin]; [|assumption].
  rewrite Z.eqb_refl in E. discriminate.
Qed.

Lemma wf_frame_parts (df : DataFrame) :
  wf_frame df = true ->
  NoDup (columns df) /\ NoDup (index df)
  /\ forall c cells, In (c, cells) (series df) ->
                     List.length cells = List.length (index df).
Proof.
  unfold wf_frame. rewrite !andb_true_iff.
  intros [[H1 H2] H3]. repeat split.
  - now apply nodup_string_NoDup.
  - now apply nodup_Z_NoDup.
  - intros c cells Hin. rewrite forallb_forall in H3.
    specialize (H3 _ Hin). simpl in H3. now apply Nat.eqb_eq in H3.
Qed.

Lemma at_get_defined (df : DataFrame) (i : Z) (c : string) :
  wf_frame df = true -> In c (columns df) -> In i (index df) ->
  at_get df i c <> None.
Proof.
  intros Hwf Hc Hi. destruct (wf_frame_parts _ Hwf) as [_ [_ Hlen]].
  apply mem_string_In in Hc. destruct (getitem_mem df c Hc) as [cells [E Hin]].
  unfold at_get. rewrite E. apply lookup_label_defined; eauto.
Qed.

Lemma at_get_column (df : DataFrame) (i : Z) (c : string) (v : cell) :
  at_get df i c = Some v -> mem_string c (columns df) = true.
Proof.
  unfold at_get. destruct (getitem df c) as [cells|] eqn:E; [|discriminate].
  intros _. apply mem_string_In. apply getitem_In in E.
  unfold columns. change c with (fst (c, cells)). now apply in_map.
Qed.

Lemma column_null_of_lookup (ls : list Z) (cells : list cell) :
  NoDup ls -> List.length cells = List.length ls ->
  (forall i, In i ls -> lookup_label ls i cells = Some VNone) ->
  Forall (fun v => v = VNone) cells.
Proof.
  intros Hi. revert cells. induction ls as [|l ls IH];
    intros [|x xs] Hlen Hall; simpl in *; try discriminate; constructor.
  - specialize (Hall l (or_introl eq_refl)). rewrite Z.eqb_refl in Hall.
    congruence.
  - inversion Hi as [|? ? Hl Hls]; subst. apply IH; [assumption | lia |].
    intros i Hin. specialize (Hall i (or_intror Hin)).
    destruct (Z.eqb l i) eqn:E; [|assumption].
    apply Z.eqb_eq in E. subst. contradiction.
Qed.

(** A frame whose every addressable cell is null is all null. *)
Lemma all_null_of_at_get (df : DataFrame) :
  wf_frame df = true ->
  (forall c i, In c (columns df) -> In i (index df) ->
               at_get df i c = Some VNone) ->
  all_null df.
Proof.
  intros Hwf H. destruct (wf_frame_parts _ Hwf) as [Hc [Hi Hlen]].
  unfold all_null. apply Forall_forall. intros [c cells] Hin. simpl.
  assert (Hget : getitem df c = Some cells) by now apply getitem_unique.
  assert (Hcol : In c (columns df)).
  { unfold columns. change c with (fst (c, cells)). now apply in_map. }
  assert (Hall : forall i, In i (index df) ->
                           lookup_label (index df) i cells = Some VNone).
  { intros i Hin'. specialize (H c i Hcol Hin').
    unfold at_get in H. now rewrite Hget in H. }
  apply column_null_of_lookup with (ls := index df); eauto.
Qed.

Section Certain.

Variable str_match : string -> string -> exn + bool.
Variable mt : nat -> N.

Local Abbreviation cell_step := (Main.cell_step str_match mt).
Local Abbreviation column_step := (Main.column_step str_match mt).
Local Abbreviation inject_body := (Main.inject_body str_match mt).
Local Abbreviation inject_nulls := (Main.inject_nulls str_match mt).
Local Abbreviation eligible := (Main.eligible str_match).
Local Abbreviation accepts := (accepts str_match).

Lemma eligible_total (pat : option string) (v : cell) :
  accepts pat -> exists b, eligible pat v = inr b.
Proof.
  intros H. destruct pat as [pt|]; simpl; [|eauto].
  destruct v; eauto.
Qed.

Lemma eligible_none (v : cell) : eligible None v = inr true.
Proof. reflexivity. Qed.

Lemma accepts_none : accepts None.
Proof. intros pt H. discriminate. Qed.

Lemma cell_step_returns (p : pyfloat) (pat : option string) (c : string)
      (iv : Z * cell) (s : state) :
  accepts pat -> fst (cell_step p pat c iv s) = inr tt.
Proof.
  intros H. destruct iv as [i v], s as [df w]. rewrite cell_step_eq.
  destruct (eligible_total pat v H) as [[|] E]; rewrite E; [|reflexivity].
  destruct (float_lt _ p); reflexivity.
Qed.

Lemma column_step_eq (p : pyfloat) (pat : option string) (c : string)
      (s : state) :
  column_step p pat c s
  = if mem_string c (columns (fst s))
    then match getitem (fst s) c with
         | Some cells =>
             for_each (cell_step p pat c) (items (fst s) cells) s
         | None => (inl (KeyError c), s)
         end
    else (inr tt,
          (fst s, {| log := log (snd s)
                            ++ [{| levelname := WARNING;
                                   message := not_found_message c |}];
                     rng := rng (snd s);
                     trace := trace (snd s) |})).
Proof.
  unfold Main.column_step, bind, get_frame. simpl.
  destruct (mem_string c (columns (fst s))); simpl; [|reflexivity].
  destruct (getitem (fst s) c); reflexivity.
Qed.

Lemma column_step_returns (p : pyfloat) (pat : option string) (c : string)
      (s : state) :
  accepts pat -> fst (column_step p pat c s) = inr tt.
Proof.
  intros H. rewrite column_step_eq.
  destruct (mem_string c (columns (fst s))) eqn:E; [|reflexivity].
  destruct (getitem_mem _ _ E) as [cells [-> _]].
  apply for_each_returns. intros. now apply cell_step_returns.
Qed.

Lemma loop_returns (p : pyfloat) (pat : option string) (cs : list string)
      (s : state) :
  accepts pat -> fst (for_each (column_step p pat) cs s) = inr tt.
Proof.
  intros H. apply for_each_returns. intros. now apply column_step_returns.
Qed.

(** With probability 0.0 no sample is below it: the frame stays. *)
Lemma loop_zero (pat : option string) (cs : list string) (s : state) :
  fst (snd (for_each (column_step (Finite 0) pat) cs s)) = fst s.
Proof.
  apply columns_loop_rel with (R := fun s s' => fst s' = fst s);
    try (intros; simpl; congruence).
  intros c [i v] [df w] _. rewrite cell_step_eq.
  destruct (eligible pat v) as [e|[|]]; try reflexivity.
  now rewrite sample_not_lt_zero.
Qed.

(** With probability 1.0 every sample is below it: once the inner loop is
    through, the eligible cells it went over are null. *)
Lemma inner_one (pat : option string) (c : string) (ivs : list (Z * cell)) :
  forall s,
    fst (for_each (cell_step (Finite 1) pat c) ivs s) = inr tt ->
    forall i v,
      In (i, v) ivs -> eligible pat v = inr true ->
      at_get (fst s) i c <> None ->
      at_get (fst (snd (for_each (cell_step (Finite 1) pat c) ivs s))) i c
      = Some VNone.
Proof.
  induction ivs as [|[i0 v0] ivs IH]; intros [df w] Hret i v Hin He Hdef;
    [contradiction|].
  rewrite for_each_cons, cell_step_eq in *. simpl in Hdef.
  destruct Hin as [Heq|Hin].
  - injection Heq as -> ->. rewrite He in *. rewrite sample_lt_one in *.
    match goal with
    | |- at_get (fst (snd (for_each ?f ?l ?s0))) _ _ = _ =>
        apply decays_none with (df := fst s0)
    end.
    + apply inner_decays.
    + simpl. rewrite at_get_at_set, String.eqb_refl, Z.eqb_refl. simpl.
      destruct (at_get df i c); [reflexivity | contradiction].
  - destruct (eligible pat v0) as [e|[|]]; simpl in *; try discriminate.
    + rewrite sample_lt_one in *. apply IH with (v := v); try assumption.
      simpl. apply decays_defined with (df := df); [apply decays_at_set|].
      assumption.
    + apply IH with (v := v); assumption.
Qed.

Lemma column_one (pat : option string) (c : string) (s : state) (i : Z)
      (v : cell) :
  NoDup (index (fst s)) ->
  fst (column_step (Finite 1) pat c s) = inr tt ->
  at_get (fst s) i c = Some v ->
  eligible pat v = inr true ->
  at_get (fst (snd (column_step (Finite 1) pat c s))) i c = Some VNone.
Proof.
  intros Hnd Hret Hget He. rewrite column_step_eq in *.
  rewrite (at_get_column _ _ _ _ Hget) in *.
  unfold at_get in Hget.
  destruct (getitem (fst s) c) as [cells|] eqn:Ec; [|discriminate].
  apply inner_one with (v := v); try assumption.
  - unfold items. now apply lookup_label_In.
  - unfold at_get. rewrite Ec, Hget. discriminate.
Qed.

Lemma loop_one (pat : option string) (df0 : DataFrame) (cs : list string) :
  wf_frame df0 = true ->
  forall s,
    shape (fst s) = shape df0 ->
    decays df0 (fst s) ->
    fst (for_each (column_step (Finite 1) pat) cs s) = inr tt ->
    forall c i v,
      In c cs -> at_get df0 i c = Some v -> eligible pat v = inr true ->
      at_get (fst (snd (for_each (column_step (Finite 1) pat) cs s))) i c
      = Some VNone.
Proof.
  intros Hwf. induction cs as [|a cs IH];
    intros s Hsh Hdec Hret c i v Hin Hget He; [contradiction|].
  rewrite for_each_cons in *.
  pose proof (column_step_shape str_match mt (Finite 1) pat a s) as Hsh1.
  pose proof (column_step_decays str_match mt (Finite 1) pat a s) as Hdec1.
  assert (Hnone : at_get (fst s) i c = Some VNone ->
                  at_get (fst (snd (column_step (Finite 1) pat a s))) i c
                  = Some VNone)
    by (apply decays_none; exact Hdec1).
  assert (Hcol : c = a ->
                 at_get (fst (snd (column_step (Finite 1) pat a s))) i c
                 = Some VNone).
  { intros ->. destruct (Hdec i a) as [E|[E _]]; [|auto].
    apply column_one with (v := v); try assumption.
    - rewrite (shape_index _ _ Hsh).
      now destruct (wf_frame_parts _ Hwf) as [_ [? _]].
    - destruct (column_step (Finite 1) pat a s) as [[e|[]] s1];
        [discriminate | reflexivity].
    - congruence. }
  destruct (column_step (Finite 1) pat a s) as [[e|[]] s1] eqn:Es;
    [discriminate|]. simpl in *.
  destruct (string_dec c a) as [Heq|Hne].
  - apply decays_none with (df := fst s1); [apply loop_decays | auto].
  - destruct Hin as [Hin|Hin]; [congruence|].
    apply IH with (v := v); try assumption.
    + congruence.
    + eapply decays_trans; eassumption.
Qed.

(** The whole block under [try] at probability 1.0. *)
Lemma body_one (pat : option string) (cols : option (list string))
      (df : DataFrame) (w : world) :
  wf_frame df = true -> accepts pat ->
  fst (inject_body (Finite 1) pat cols (df, w)) = inr tt
  /\ forall c i v,
       In c (resolve df cols) -> at_get df i c = Some v ->
       eligible pat v = inr true ->
       at_get (fst (snd (inject_body (Finite 1) pat cols (df, w)))) i c
       = Some VNone.
Proof.
  intros Hwf Hacc. rewrite inject_body_eq. simpl fst.
  assert (Hret : fst (for_each (column_step (Finite 1) pat)
                        (resolve df cols) (df, w)) = inr tt)
    by now apply loop_returns.
  split; [assumption|]. intros c i v Hin Hget He.
  apply loop_one with (df0 := df) (v := v); try assumption.
  - reflexivity.
  - apply decays_refl.
Qed.

End Certain.

(* ------------------------------------------------------------------ *)
(** ** Probability 1.0 and probability 0.0 *)

Section Extremes.

Variable str_match : string -> string -> exn + bool.
Variable mt : nat -> N.

Local Abbreviation inject_body := (Main.inject_body str_match mt).
Local Abbreviation inject_nulls := (Main.inject_nulls str_match mt).
Local Abbreviation eligible := (Main.eligible str_match).
Local Abbreviation accepts := (accepts str_match).

Lemma inject_nulls_invalid (df : DataFrame) (p : pyfloat)
      (pat : option string) (cols : option (list string)) (w : world) :
  in_unit_interval p = false ->
  inject_nulls (PDataFrame df) p pat cols w
  = {| ended := Raised (ValueError "Probability must be between 0.0 and 1.0.");
       data_after := PDataFrame df;
       world_after := w |}.
Proof. intros H. unfold Main.inject_nulls. now rewrite H. Qed.

Lemma body_shape (p : pyfloat) (pat : option string)
      (cols : option (list string)) (s : state) :
  shape (fst (snd (inject_body p pat cols s))) = shape (fst s).
Proof. rewrite inject_body_eq. apply loop_shape. Qed.

(** Probability 1.0, no pattern: the selected columns come out null. *)
Lemma selected_columns_null (cols : option (list string))
      (df : DataFrame) (w : world) :
  wf_frame df = true ->
  fst (inject_body (Finite 1) None cols (df, w)) = inr tt
  /\ forall c cells,
       In c (resolve df cols) ->
       getitem (fst (snd (inject_body (Finite 1) None cols (df, w)))) c
       = Some cells ->
       Forall (fun v => v = VNone) cells.
Proof.
  intros Hwf.
  destruct (body_one str_match mt None cols df w Hwf (accepts_none str_match))
    as [Hret Hnull].
  split; [assumption|]. intros c cells Hin Hget.
  pose proof (body_shape (Finite 1) None cols (df, w)) as Hsh.
  set (df' := fst (snd (inject_body (Finite 1) None cols (df, w)))) in *.
  simpl in Hsh.
  assert (Hwf' : wf_frame df' = true) by now rewrite (shape_wf _ _ Hsh).
  destruct (wf_frame_parts _ Hwf') as [_ [Hnd Hlen]].
  apply column_null_of_lookup with (ls := index df'); try assumption.
  - apply Hlen with (c := c). now apply getitem_In.
  - intros i Hi.
    assert (Hc : In c (columns df)).
    { rewrite <- (shape_columns _ _ Hsh). apply getitem_In in Hget.
      unfold columns. change c with (fst (c, cells)). now apply in_map. }
    assert (Hdef : at_get df i c <> None).
    { apply at_get_defined; try assumption. now rewrite <- (shape_index _ _ Hsh). }
    destruct (at_get df i c) as [v|] eqn:Ev; [|contradiction].
    specialize (Hnull c i v Hin Ev (eq_refl _)).
    unfold at_get in Hnull. fold df' in Hnull. now rewrite Hget in Hnull.
Qed.

Lemma all_columns_null (df : DataFrame) (w : world) :
  wf_frame df = true ->
  fst (inject_body (Finite 1) None None (df, w)) = inr tt
  /\ all_null (fst (snd (inject_body (Finite 1) None None (df, w)))).
Proof.
  intros Hwf. destruct (selected_columns_null None df w Hwf) as [Hret Hnull].
  split; [assumption|].
  pose proof (body_shape (Finite 1) None None (df, w)) as Hsh.
  set (df' := fst (snd (inject_body (Finite 1) None None (df, w)))) in *.
  simpl in Hsh.
  assert (Hwf' : wf_frame df' = true) by now rewrite (shape_wf _ _ Hsh).
  destruct (wf_frame_parts _ Hwf') as [Hnd _].
  apply Forall_forall. intros [c cells] Hin. simpl.
  apply Hnull with (c := c).
  - simpl. rewrite <- (shape_columns _ _ Hsh).
    unfold columns. change c with (fst (c, cells)). now apply in_map.
  - now apply getitem_unique.
Qed.


(** C2, amended.  With probability 0.0 no cell is changed, whatever the
    pattern and the column selection: the object passed as [data] holds
    the input table afterwards.  The call returns it when the pattern is
    absent or accepted by the regular-expression library; a pattern the
    library rejects makes the call raise instead. *)
Theorem zero_probability_changes_no_cell
        (df : DataFrame) (pattern : option string)
        (columns_arg : option (list string)) (w : world) :
  let r := inject_nulls (PDataFrame df) (Finite 0) pattern columns_arg w in
  data_after r = PDataFrame df
  /\ (accepts pattern -> ended r = Returned).
Proof.
  intros r. subst r. rewrite inject_nulls_run by reflexivity.
  rewrite inject_body_eq. simpl fst.
  pose proof (loop_zero str_match mt pattern (resolve df columns_arg) (df, w))
    as Hz.
  pose proof (loop_returns str_match mt (Finite 0) pattern
                (resolve df columns_arg) (df, w)) as Hr.
  destruct (for_each _ _ _) as [[e|[]] s']; simpl in *; subst.
  - split; [reflexivity|]. intros Ha. specialize (Hr Ha). discriminate.
  - split; reflexivity.
Qed.


End Extremes.

(* ------------------------------------------------------------------ *)
(** ** Column selection *)

Lemma rstrip_blank (s : string) : blank s = true -> Str.rstrip s = "".
Proof.
  induction s as [|c s IH]; simpl; [reflexivity|].
  rewrite andb_true_iff. intros [Hc Hs]. now rewrite (IH Hs), Hc.
Qed.

Lemma rstrip_app_blank (x post : string) :
  blank post = true -> Str.rstrip (x ++ post) = Str.rstrip x.
Proof.
  intros H. induction x as [|c x IH]; simpl.
  - now apply rstrip_blank.
  - now rewrite IH.
Qed.

Lemma rstrip_ends_clean (s : string) : ends_clean s = true -> Str.rstrip s = s.
Proof.
  induction s as [|c s IH]; [reflexivity|].
  destruct s as [|c' s'].
  - simpl. intros H. now rewrite (proj1 (negb_true_iff _) H).
  - intros H. change (ends_clean (String c' s') = true) in H.
    change (Str.rstrip (String c (String c' s')))
      with (match Str.rstrip (String c' s') with
            | EmptyString =>
                if Str.is_space c then EmptyString else String c EmptyString
            | r => String c r
            end).
    now rewrite (IH H).
Qed.

Lemma ends_clean_app (pre s : string) :
  s <> "" -> ends_clean (pre ++ s) = ends_clean s.
Proof.
  intros Hs. induction pre as [|c pre IH]; [reflexivity|].
  simpl. destruct (pre ++ s)%string as [|c' r] eqn:E; [|exact IH].
  destruct pre; simpl in E; [contradiction | discriminate].
Qed.

Lemma lstrip_app_blank (pre s : string) :
  blank pre = true -> Str.lstrip (pre ++ s) = Str.lstrip s.
Proof.
  induction pre as [|c pre IH]; simpl; [reflexivity|].
  rewrite andb_true_iff. intros [Hc Hp]. rewrite Hc. auto.
Qed.

Lemma lstrip_starts_clean (s : string) :
  starts_clean s = true -> Str.lstrip s = s.
Proof.
  destruct s as [|c s]; simpl; [reflexivity|].
  intros H. now rewrite (proj1 (negb_true_iff _) H).
Qed.

(** [strip] removes the whitespace around a name and nothing else. *)
Lemma strip_spelled (n : padded) :
  well_padded n = true -> Str.strip (spelled n) = name n.
Proof.
  destruct n as [pre core post]. unfold well_padded, spelled, trimmed. simpl.
  rewrite !andb_true_iff. intros [[Hpre [Hs He]] Hpost].
  unfold Str.strip.
  assert (E : (pre ++ core ++ post = (pre ++ core) ++ post)%string).
  { clear. induction pre as [|c pre IH]; simpl; [reflexivity | now rewrite IH]. }
  rewrite E, rstrip_app_blank by assumption.
  destruct core as [|c core].
  - assert (E0 : (pre ++ "" = pre)%string).
    { clear. induction pre as [|c pre IH]; simpl; [reflexivity | now rewrite IH]. }
    rewrite E0, rstrip_blank by assumption. reflexivity.
  - rewrite rstrip_ends_clean
      by (rewrite ends_clean_app; [assumption | discriminate]).
    rewrite lstrip_app_blank by assumption.
    now apply lstrip_starts_clean.
Qed.

Section Selection.

Variable str_match : string -> string -> exn + bool.
Variable mt : nat -> N.

Local Abbreviation inject_body := (Main.inject_body str_match mt).
Local Abbreviation inject_nulls := (Main.inject_nulls str_match mt).

(** C9.  Every supplied column name is stripped before anything is done
    with it: a call in which the names are written with whitespace around
    them is the same call as the one with the bare names, in how it ends,
    in the table, in what it logs (the warnings for unknown names
    included) and in the cells it visits. *)
Theorem column_names_are_trimmed
        (df : DataFrame) (probability : pyfloat) (pattern : option string)
        (names : list padded) (w : world) :
  forallb well_padded names = true ->
  inject_nulls (PDataFrame df) probability pattern
               (Some (map spelled names)) w
  = inject_nulls (PDataFrame df) probability pattern
                 (Some (map name names)) w
  /\ resolve df (Some (map spelled names)) = map name names.
Proof.
  intros H.
  assert (E : forall l, forallb well_padded l = true ->
                        map Str.strip (map spelled l) = map name l).
  { induction l as [|n l IH]; simpl; [reflexivity|].
    rewrite andb_true_iff. intros [Hn Hl].
    now rewrite (strip_spelled n Hn), (IH Hl). }
  assert (E' : forall l, forallb well_padded l = true ->
                         map Str.strip (map name l) = map name l).
  { induction l as [|n l IH]; simpl; [reflexivity|].
    rewrite andb_true_iff. intros [Hn Hl]. rewrite (IH Hl). f_equal.
    unfold well_padded, trimmed in Hn. rewrite !andb_true_iff in Hn.
    destruct Hn as [[_ [Hs He]] _]. unfold Str.strip.
    rewrite rstrip_ends_clean by assumption.
    now apply lstrip_starts_clean. }
  split; [|exact (E names H)].
  unfold Main.inject_nulls, Main.inject_body, try_except, bind, get_frame.
  simpl. now rewrite (E names H), (E' names H).
Qed.


End Selection.

(* ------------------------------------------------------------------ *)
(** ** Unknown column names *)

Lemma for_each_app (A : Type) (f : A -> M unit) (l1 l2 : list A) (s : state) :
  for_each f (l1 ++ l2) s
  = match for_each f l1 s with
    | (inr _, s1) => for_each f l2 s1
    | (inl e, s1) => (inl e, s1)
    end.
Proof.
  revert s. induction l1 as [|x l1 IH]; intros s; [reflexivity|].
  simpl app. rewrite !for_each_cons.
  destruct (f x s) as [[e|[]] s1]; [reflexivity | apply IH].
Qed.

(** What was logged before does not bear on what a loop does. *)
Lemma for_each_with_log (A : Type) (f : A -> M unit) (l : list A) :
  (forall x L s, f x (with_log L s) = (fst (f x s), with_log L (snd (f x s)))) ->
  forall L s,
    for_each f l (with_log L s)
    = (fst (for_each f l s), with_log L (snd (for_each f l s))).
Proof.
  intros Hf. induction l as [|x l IH]; intros L s; [reflexivity|].
  rewrite !for_each_cons, Hf.
  destruct (f x s) as [[e|[]] s1]; simpl; [reflexivity | apply IH].
Qed.

Section Unknown.

Variable str_match : string -> string -> exn + bool.
Variable mt : nat -> N.

Local Abbreviation cell_step := (Main.cell_step str_match mt).
Local Abbreviation column_step := (Main.column_step str_match mt).
Local Abbreviation inject_body := (Main.inject_body str_match mt).
Local Abbreviation inject_nulls := (Main.inject_nulls str_match mt).
Local Abbreviation eligible := (Main.eligible str_match).

Variable p : pyfloat.
Variable pat : option string.

Lemma cell_step_with_log (c : string) (iv : Z * cell) (L : list log_record)
      (s : state) :
  cell_step p pat c iv (with_log L s)
  = (fst (cell_step p pat c iv s), with_log L (snd (cell_step p pat c iv s))).
Proof.
  destruct iv as [i v], s as [df w]. unfold with_log at 1. cbn [fst snd].
  rewrite !cell_step_eq. cbn [log rng trace].
  destruct (eligible pat v) as [e|[|]]; try reflexivity.
  destruct (float_lt _ p); unfold with_log; simpl; [|reflexivity].
  now rewrite app_assoc.
Qed.

Lemma column_step_with_log (c : string) (L : list log_record) (s : state) :
  column_step p pat c (with_log L s)
  = (fst (column_step p pat c s), with_log L (snd (column_step p pat c s))).
Proof.
  rewrite !column_step_eq. cbn [with_log fst snd].
  destruct (mem_string c (columns (fst s))).
  - destruct (getitem (fst s) c) as [cells|]; [|reflexivity].
    apply for_each_with_log. intros. apply cell_step_with_log.
  - unfold with_log. simpl. now rewrite app_assoc.
Qed.

Lemma loop_with_log (cs : list string) (L : list log_record) (s : state) :
  for_each (column_step p pat) cs (with_log L s)
  = (fst (for_each (column_step p pat) cs s),
     with_log L (snd (for_each (column_step p pat) cs s))).
Proof.
  apply for_each_with_log. intros. apply column_step_with_log.
Qed.

Lemma loop_from_log (cs : list string) (df : DataFrame) (L : list log_record)
      (n : nat) (t : list event) :
  for_each (column_step p pat) cs (df, {| log := L; rng := n; trace := t |})
  = (fst (for_each (column_step p pat) cs
            (df, {| log := []; rng := n; trace := t |})),
     with_log L (snd (for_each (column_step p pat) cs
                        (df, {| log := []; rng := n; trace := t |})))).
Proof.
  rewrite <- loop_with_log. unfold with_log. simpl. now rewrite app_nil_r.
Qed.

(** The loop over names of which one is not a column of the table: the
    same as without that name, but for the warning. *)
Lemma loop_unknown (l1 l2 : list string) (z : string) (s : state) :
  mem_string z (columns (fst s)) = false ->
  let a := for_each (column_step p pat) (l1 ++ z :: l2) s in
  let b := for_each (column_step p pat) (l1 ++ l2) s in
  fst a = fst b /\ fst (snd a) = fst (snd b)
  /\ rng (snd (snd a)) = rng (snd (snd b))
  /\ trace (snd (snd a)) = trace (snd (snd b))
  /\ ((exists L D, log (snd (snd b)) = L ++ D
                   /\ log (snd (snd a)) = L ++ not_found_record z :: D)
      \/ (a = b /\ fst a <> inr tt)).
Proof.
  intros Hz a b. subst a b. rewrite !for_each_app.
  pose proof (loop_shape str_match mt p pat l1 s) as Hsh.
  destruct (for_each (column_step p pat) l1 s) as [[e|[]] [df1 [L1 n1 t1]]].
  - repeat split; try reflexivity. right. split; [reflexivity | discriminate].
  - rewrite for_each_cons, column_step_eq. cbn [fst snd log rng trace] in *.
    rewrite (shape_columns _ _ Hsh), Hz.
    rewrite (loop_from_log l2 df1 L1), (loop_from_log l2 df1 (L1 ++ _)).
    cbn [fst snd with_log log rng trace].
    repeat split; try reflexivity. left.
    exists L1, (log (snd (snd (for_each (column_step p pat) l2
                  (df1, {| log := []; rng := n1; trace := t1 |}))))).
    split; [reflexivity|]. now rewrite <- app_assoc.
Qed.

End Unknown.

Section UnknownName.

Variable str_match : string -> string -> exn + bool.
Variable mt : nat -> N.

Local Abbreviation inject_nulls := (Main.inject_nulls str_match mt).

(** C6.  A name that, once stripped, is not a column of the table is no
    error.  The call with that name among the others ends as the call
    without it does (returning, or raising the same exception), leaves
    the same table, draws as many random numbers and visits the same
    cells; it logs what the other call logs and in addition, at the point
    where the name is reached, one warning that the column was not found.
    The only case without the warning is a call that raises before the
    name is reached. *)
Theorem unknown_column_is_skipped
        (df : DataFrame) (probability : pyfloat) (pattern : option string)
        (l1 l2 : list string) (z : string) (w : world) :
  mem_string (Str.strip z) (columns df) = false ->
  let r := inject_nulls (PDataFrame df) probability pattern
             (Some (l1 ++ z :: l2)) w in
  let r0 := inject_nulls (PDataFrame df) probability pattern
              (Some (l1 ++ l2)) w in
  ended r = ended r0
  /\ data_after r = data_after r0
  /\ rng (world_after r) = rng (world_after r0)
  /\ trace (world_after r) = trace (world_after r0)
  /\ ((exists L D,
         log (world_after r0) = L ++ D
         /\ log (world_after r) = L ++ not_found_record (Str.strip z) :: D)
      \/ (r = r0 /\ ended r <> Returned)).
Proof.
  intros Hz r r0. subst r r0.
  destruct (in_unit_interval probability) eqn:Hp.
  - rewrite !inject_nulls_run by assumption. rewrite !inject_body_eq.
    cbn [fst resolve]. rewrite !map_app. cbn [map].
    pose proof (loop_unknown str_match mt probability pattern
                  (map Str.strip l1) (map Str.strip l2) (Str.strip z)
                  (df, w) Hz) as H.
    cbv zeta in H.
    destruct (for_each _ (map Str.strip l1 ++ Str.strip z :: map Str.strip l2)
                _) as [ra [dfa wa]].
    destruct (for_each _ (map Str.strip l1 ++ map Str.strip l2) _)
      as [rb [dfb wb]].
    cbn [fst snd] in H. destruct H as [Hr [Hd [Hn [Ht Hl]]]]. subst rb dfb.
    destruct ra as [e|[]];
      cbn [ended data_after world_after log rng trace fst snd];
      (split; [reflexivity|]); (split; [reflexivity|]);
      (split; [assumption|]); (split; [assumption|]).
    + destruct Hl as [[L [D [Hb Ha]]]|[Hab _]].
      * left. exists L, (D ++ [{| levelname := ERROR;
                                  message := failure_message e |}]).
        rewrite Hb, Ha. split; [now rewrite app_assoc|].
        now rewrite <- app_assoc.
      * right. injection Hab as ->. split; [reflexivity | discriminate].
    + destruct Hl as [[L [D [Hb Ha]]]|[_ Hne]]; [|now contradiction Hne].
      left. exists L, D. split; assumption.
  - rewrite !inject_nulls_invalid by assumption. repeat split; try reflexivity.
    right. split; [reflexivity | discriminate].
Qed.

End UnknownName.

(* ------------------------------------------------------------------ *)
(** ** The order of the visits *)

Lemma times_app (ev : event) (t1 t2 : list event) :
  times ev (t1 ++ t2) = (times ev t1 + times ev t2)%nat.
Proof. apply count_occ_app. Qed.

Lemma times_visits (c : string) (i : Z) (tr : list event) :
  times (Visit c i) (visits tr) = times (Visit c i) tr.
Proof.
  unfold times, visits. induction tr as [|ev tr IH]; [reflexivity|].
  destruct ev as [c' i'|c' i']; simpl.
  - now rewrite IH.
  - rewrite IH. destruct (event_eq_dec (Draw c' i') (Visit c i));
      [discriminate | reflexivity].
Qed.

Lemma visits_app (t1 t2 : list event) :
  visits (t1 ++ t2) = visits t1 ++ visits t2.
Proof. apply filter_app. Qed.

Lemma times_column_pass (c a : string) (i : Z) (ls : list Z) :
  NoDup ls ->
  (times (Visit c i) (map (Visit a) ls)
   <= if string_dec a c then 1 else 0)%nat.
Proof.
  unfold times. induction ls as [|l ls IH]; intros Hnd; simpl.
  - destruct (string_dec a c); lia.
  - inversion Hnd as [|? ? Hl Hls]; subst. specialize (IH Hls).
    destruct (event_eq_dec (Visit a l) (Visit c i)) as [E|E]; [|exact IH].
    injection E as -> ->. destruct (string_dec c c); [|contradiction].
    assert (H0 : count_occ event_eq_dec (map (Visit c) ls) (Visit c i) = 0%nat).
    { apply count_occ_not_In. rewrite in_map_iff.
      intros [x [Hx Hin]]. injection Hx as ->. contradiction. }
    lia.
Qed.

Lemma times_plan (df : DataFrame) (cs : list string) (c : string) (i : Z) :
  NoDup (index df) ->
  (times (Visit c i) (plan df cs) <= count_occ string_dec cs c)%nat.
Proof.
  intros Hnd. induction cs as [|a cs IH]; [apply Nat.le_refl|].
  simpl plan. rewrite times_app. simpl count_occ.
  assert (H : (times (Visit c i) (column_plan df a)
               <= if string_dec a c then 1 else 0)%nat).
  { unfold column_plan. destruct (mem_string a (columns df)).
    - now apply times_column_pass.
    - simpl. destruct (string_dec a c); lia. }
  destruct (string_dec a c); lia.
Qed.

Lemma map_fst_combine (ls : list Z) (cells : list cell) :
  List.length cells = List.length ls -> map fst (combine ls cells) = ls.
Proof.
  revert cells. induction ls as [|l ls IH]; intros [|x xs] H; simpl in *;
    try discriminate; [reflexivity|].
  f_equal. apply IH. lia.
Qed.

Section Order.

Variable str_match : string -> string -> exn + bool.
Variable mt : nat -> N.

Local Abbreviation cell_step := (Main.cell_step str_match mt).
Local Abbreviation column_step := (Main.column_step str_match mt).
Local Abbreviation inject_body := (Main.inject_body str_match mt).
Local Abbreviation inject_nulls := (Main.inject_nulls str_match mt).
Local Abbreviation eligible := (Main.eligible str_match).

Variable p : pyfloat.
Variable pat : option string.

Lemma paired_visit (tr : list event) (c : string) (i : Z) :
  paired tr -> paired (tr ++ [Visit c i]).
Proof.
  intros H c' i'. specialize (H c' i'). rewrite !times_app.
  unfold times at 2 4. simpl.
  destruct (event_eq_dec (Visit c i) (Draw c' i')); [discriminate|].
  destruct (event_eq_dec (Visit c i) (Visit c' i')); lia.
Qed.

Lemma paired_visit_draw (tr : list event) (c : string) (i : Z) :
  paired tr -> paired ((tr ++ [Visit c i]) ++ [Draw c i]).
Proof.
  intros H c' i'. specialize (H c' i'). rewrite !times_app.
  unfold times at 2 3 5 6. simpl.
  destruct (event_eq_dec (Visit c i) (Draw c' i')); [discriminate|].
  destruct (event_eq_dec (Draw c i) (Visit c' i')); [discriminate|].
  destruct (event_eq_dec (Draw c i) (Draw c' i')) as [E|E];
    destruct (event_eq_dec (Visit c i) (Visit c' i')) as [E'|E']; try lia.
  injection E as -> ->. contradiction.
Qed.

Lemma cell_step_paired (c : string) (iv : Z * cell) (s : state) :
  paired (trace (snd s)) ->
  paired (trace (snd (snd (cell_step p pat c iv s)))).
Proof.
  destruct iv as [i v], s as [df w]. rewrite cell_step_eq. cbn [snd].
  intros H. destruct (eligible pat v) as [e|[|]]; cbn [snd trace];
    try now apply paired_visit.
  destruct (float_lt _ p); cbn [snd trace]; now apply paired_visit_draw.
Qed.

Lemma loop_paired (cs : list string) (s : state) :
  paired (trace (snd s)) ->
  paired (trace (snd (snd (for_each (column_step p pat) cs s)))).
Proof.
  apply columns_loop_rel with
    (R := fun s s' => paired (trace (snd s)) -> paired (trace (snd s'))).
  - auto.
  - auto.
  - intros s0 L H. exact H.
  - intros c iv s0 _. apply cell_step_paired.
Qed.

Lemma inner_begins (c : string) (ivs : list (Z * cell)) :
  forall s,
    begins (map (fun iv => Visit c (fst iv)) ivs) s
           (for_each (cell_step p pat c) ivs s).
Proof.
  induction ivs as [|[i v] ivs IH]; intros [df w].
  - exists [], []. simpl. rewrite app_nil_r. repeat split; reflexivity.
  - rewrite for_each_cons, cell_step_eq. cbn [map fst].
    destruct (eligible pat v) as [e|[|]].
    + exists [Visit c i], (map (fun iv => Visit c (fst iv)) ivs).
      cbn [fst snd trace]. rewrite visits_app. simpl.
      repeat split. discriminate.
    + destruct (float_lt _ p);
        match goal with
        | |- begins _ _ (for_each _ _ ?s1) =>
            destruct (IH s1) as [seen [rest [E1 [E2 E3]]]]
        end;
        exists (Visit c i :: seen), rest; cbn [fst snd trace] in *.
      * split; [simpl; now rewrite E1 | split; [|exact E3]].
        rewrite E2, !visits_app. simpl.
        now rewrite ?app_nil_r, <- app_assoc.
      * split; [simpl; now rewrite E1 | split; [|exact E3]].
        rewrite E2, !visits_app. simpl.
        now rewrite ?app_nil_r, <- app_assoc.
    + destruct (IH (df, {| log := log w; rng := rng w;
                            trace := trace w ++ [Visit c i] |}))
        as [seen [rest [E1 [E2 E3]]]].
      exists (Visit c i :: seen), rest. cbn [fst snd trace] in *.
      split; [simpl; now rewrite E1 | split; [|exact E3]].
      rewrite E2, !visits_app. simpl.
      now rewrite ?app_nil_r, <- app_assoc.
Qed.

Lemma column_begins (df0 : DataFrame) (c : string) (s : state) :
  wf_frame df0 = true -> shape (fst s) = shape df0 ->
  begins (column_plan df0 c) s (column_step p pat c s).
Proof.
  intros Hwf Hsh. rewrite column_step_eq. unfold column_plan.
  rewrite <- (shape_columns _ _ Hsh).
  destruct (mem_string c (columns (fst s))) eqn:Em.
  - destruct (getitem_mem _ _ Em) as [cells [Eg Hin]]. rewrite Eg.
    assert (Hwf' : wf_frame (fst s) = true) by now rewrite (shape_wf _ _ Hsh).
    destruct (wf_frame_parts _ Hwf') as [_ [_ Hlen]].
    pose proof (inner_begins c (items (fst s) cells) s) as H.
    unfold items in H at 1.
    rewrite <- (map_map fst (Visit c)), map_fst_combine in H by eauto.
    rewrite (shape_index _ _ Hsh) in H. exact H.
  - exists [], []. cbn [fst snd trace app]. rewrite app_nil_r.
    repeat split; reflexivity.
Qed.

Lemma loop_begins (df0 : DataFrame) (cs : list string) :
  wf_frame df0 = true ->
  forall s, shape (fst s) = shape df0 ->
            begins (plan df0 cs) s (for_each (column_step p pat) cs s).
Proof.
  intros Hwf. induction cs as [|a cs IH]; intros s Hsh.
  - exists [], []. simpl. rewrite app_nil_r. repeat split; reflexivity.
  - rewrite for_each_cons. simpl plan.
    destruct (column_begins df0 a s Hwf Hsh) as [seen [rest [E1 [E2 E3]]]].
    pose proof (column_step_shape str_match mt p pat a s) as Hsh1.
    destruct (column_step p pat a s) as [[e|[]] s1]; cbn [fst snd] in *.
    + exists seen, (rest ++ plan df0 cs). rewrite E1, <- app_assoc.
      repeat split; [assumption | discriminate].
    + rewrite (E3 eq_refl), app_nil_r in E1.
      destruct (IH s1) as [seen' [rest' [F1 [F2 F3]]]]; [congruence|].
      exists (seen ++ seen'), rest'. rewrite E1, F1, F2, E2, !app_assoc.
      repeat split. assumption.
Qed.

End Order.

Section VisitOrder.

Variable str_match : string -> string -> exn + bool.
Variable mt : nat -> N.

Local Abbreviation inject_body := (Main.inject_body str_match mt).
Local Abbreviation inject_nulls := (Main.inject_nulls str_match mt).

(** C7, amended.  The cells are visited in an order fixed by the table
    and the resolved names alone: name after name, and the rows in index
    order within each; a call that returns has made all these visits, a
    call that raises a beginning of them.  A random number is drawn for a
    cell at most once per visit of it.  A cell is visited at most once
    for each time its column is named, hence at most once (and sampled at
    most once) when the resolved names are distinct, as they are when no
    columns are given. *)
Theorem visits_follow_the_plan
        (df : DataFrame) (probability : pyfloat) (pattern : option string)
        (columns_arg : option (list string)) (w : world) :
  wf_frame df = true ->
  trace w = [] ->
  let r := inject_nulls (PDataFrame df) probability pattern columns_arg w in
  let tr := trace (world_after r) in
  (exists rest,
      plan df (resolve df columns_arg) = visits tr ++ rest
      /\ (ended r = Returned -> rest = []))
  /\ (forall c i, times (Draw c i) tr <= times (Visit c i) tr)%nat
  /\ (forall c i,
        times (Visit c i) tr
        <= count_occ string_dec (resolve df columns_arg) c)%nat
  /\ (NoDup (resolve df columns_arg) ->
      forall c i, times (Visit c i) tr <= 1 /\ times (Draw c i) tr <= 1)%nat
  /\ NoDup (resolve df None).
Proof.
  intros Hwf Ht r tr.
  destruct (wf_frame_parts _ Hwf) as [Hcols [Hidx _]].
  assert (Hbegin : exists rest,
             plan df (resolve df columns_arg) = visits tr ++ rest
             /\ (ended r = Returned -> rest = [])).
  { subst tr r. destruct (in_unit_interval probability) eqn:Hp.
    - rewrite inject_nulls_run by assumption. rewrite inject_body_eq.
      cbn [fst].
      destruct (loop_begins str_match mt probability pattern df
                  (resolve df columns_arg) Hwf (df, w) eq_refl)
        as [seen [rest [E1 [E2 E3]]]].
      cbn [snd] in E2. rewrite Ht in E2. simpl in E2.
      destruct (for_each _ _ _) as [[e|[]] s']; cbn [fst snd] in *;
        exists rest; cbn [world_after trace ended]; rewrite E2;
        (split; [assumption|]).
      + discriminate.
      + intros _. now apply E3.
    - rewrite inject_nulls_invalid by assumption. simpl. rewrite Ht.
      exists (plan df (resolve df columns_arg)).
      split; [reflexivity | discriminate]. }
  assert (Hpaired : paired tr).
  { subst tr r. destruct (in_unit_interval probability) eqn:Hp.
    - rewrite inject_nulls_run by assumption. rewrite inject_body_eq.
      cbn [fst].
      pose proof (loop_paired str_match mt probability pattern
                    (resolve df columns_arg) (df, w)) as H.
      cbn [snd] in H. rewrite Ht in H.
      assert (H0 : paired []) by (intros c i; apply Nat.le_refl).
      specialize (H H0).
      destruct (for_each _ _ _) as [[e|[]] s']; exact H.
    - rewrite inject_nulls_invalid by assumption. simpl. rewrite Ht.
      intros c i. apply Nat.le_refl. }
  assert (Hocc : forall c i,
             (times (Visit c i) tr
              <= count_occ string_dec (resolve df columns_arg) c)%nat).
  { intros c i. destruct Hbegin as [rest [E _]].
    pose proof (times_plan df (resolve df columns_arg) c i Hidx) as H.
    rewrite E, times_app, times_visits in H. lia. }
  split; [exact Hbegin|]. split; [exact Hpaired|]. split; [exact Hocc|].
  split; [|exact Hcols].
  intros Hnd c i.
  pose proof (proj1 (NoDup_count_occ string_dec _) Hnd c) as H1.
  specialize (Hocc c i). specialize (Hpaired c i). lia.
Qed.

End VisitOrder.

(* ------------------------------------------------------------------ *)
(** ** Which cells are eligible *)

Section Eligibility.

Variable str_match : string -> string -> exn + bool.
Variable mt : nat -> N.

Local Abbreviation cell_step := (Main.cell_step str_match mt).
Local Abbreviation column_step := (Main.column_step str_match mt).
Local Abbreviation inject_body := (Main.inject_body str_match mt).
Local Abbreviation inject_nulls := (Main.inject_nulls str_match mt).
Local Abbreviation eligible := (Main.eligible str_match).
Local Abbreviation accepts := (accepts str_match).

Variable p : pyfloat.
Variable pat : option string.

Local Abbreviation draws_justified := (draws_justified str_match pat).

Lemma eligible_matched (pt : string) (v : cell) :
  eligible (Some pt) v = inr true <-> matched str_match pt v.
Proof.
  unfold matched. destruct v as [s|q|b|]; simpl; split;
    try discriminate; try (intros [s' [E _]]; discriminate).
  - intros H. exists s. auto.
  - intros [s' [E H]]. injection E as ->. exact H.
Qed.

(** The trace only grows. *)
Lemma cell_step_trace (c : string) (iv : Z * cell) (s : state) :
  incl (trace (snd s)) (trace (snd (snd (cell_step p pat c iv s)))).
Proof.
  destruct iv as [i v], s as [df w]. rewrite cell_step_eq. cbn [snd].
  intros ev H.
  destruct (eligible pat v) as [e|[|]]; cbn [snd trace];
    try (apply in_or_app; now left).
  destruct (float_lt _ p); cbn [snd trace];
    apply in_or_app; left; apply in_or_app; now left.
Qed.

Lemma inner_trace (c : string) (ivs : list (Z * cell)) (s : state) :
  incl (trace (snd s))
       (trace (snd (snd (for_each (cell_step p pat c) ivs s)))).
Proof.
  apply for_each_rel with
    (R := fun s s' => incl (trace (snd s)) (trace (snd s'))).
  - intros. apply incl_refl.
  - intros s1 s2 s3. apply incl_tran.
  - intros. apply cell_step_trace.
Qed.

Lemma loop_trace (cs : list string) (s : state) :
  incl (trace (snd s))
       (trace (snd (snd (for_each (column_step p pat) cs s)))).
Proof.
  apply columns_loop_rel with
    (R := fun s s' => incl (trace (snd s)) (trace (snd s'))).
  - intros. apply incl_refl.
  - intros s1 s2 s3. apply incl_tran.
  - intros s0 L. apply incl_refl.
  - intros. apply cell_step_trace.
Qed.

Lemma column_step_trace (c : string) (s : state) :
  incl (trace (snd s)) (trace (snd (snd (column_step p pat c s)))).
Proof.
  apply column_step_rel with
    (R := fun s s' => incl (trace (snd s)) (trace (snd s'))).
  - intros. apply incl_refl.
  - intros s1 s2 s3. apply incl_tran.
  - intros s0 L. apply incl_refl.
  - intros. apply cell_step_trace.
Qed.

(** A cell is changed only by an iteration that draws for it. *)
Lemma cell_step_drawn_or_kept (df0 : DataFrame) (c : string) (iv : Z * cell)
      (s : state) :
  drawn_or_kept df0 s -> drawn_or_kept df0 (snd (cell_step p pat c iv s)).
Proof.
  intros H i' c'. specialize (H i' c').
  pose proof (cell_step_trace c iv s (Draw c' i')) as Hgrow.
  destruct iv as [i v], s as [df w]. rewrite cell_step_eq in *.
  cbn [fst snd] in *.
  destruct (eligible pat v) as [e|[|]]; cbn [fst snd trace] in *;
    try (destruct H as [H|H]; [now left | right; now apply Hgrow]).
  destruct (float_lt _ p); cbn [fst snd trace] in *;
    try (destruct H as [H|H]; [now left | right; now apply Hgrow]).
  rewrite at_get_at_set.
  destruct (String.eqb c' c && Z.eqb i' i) eqn:E.
  - apply andb_true_iff in E. destruct E as [Ec Ei].
    apply String.eqb_eq in Ec. apply Z.eqb_eq in Ei. subst.
    right. apply in_or_app. right. now left.
  - destruct H as [H|H]; [now left | right; now apply Hgrow].
Qed.

Lemma column_step_drawn_or_kept (df0 : DataFrame) (c : string) (s : state) :
  drawn_or_kept df0 s -> drawn_or_kept df0 (snd (column_step p pat c s)).
Proof.
  apply column_step_rel with
    (R := fun s s' => drawn_or_kept df0 s -> drawn_or_kept df0 s').
  - auto.
  - auto.
  - intros s0 L H. exact H.
  - intros. now apply cell_step_drawn_or_kept.
Qed.

Lemma loop_drawn_or_kept (df0 : DataFrame) (cs : list string) (s : state) :
  drawn_or_kept df0 s ->
  drawn_or_kept df0 (snd (for_each (column_step p pat) cs s)).
Proof.
  apply columns_loop_rel with
    (R := fun s s' => drawn_or_kept df0 s -> drawn_or_kept df0 s').
  - auto.
  - auto.
  - intros s0 L H. exact H.
  - intros. now apply cell_step_drawn_or_kept.
Qed.

(** An eligible cell that a completed pass goes over is drawn for. *)
Lemma inner_draws (c : string) (ivs : list (Z * cell)) :
  accepts pat ->
  forall s i v,
    In (i, v) ivs -> eligible pat v = inr true ->
    In (Draw c i)
       (trace (snd (snd (for_each (cell_step p pat c) ivs s)))).
Proof.
  intros Hacc. induction ivs as [|[i0 v0] ivs IH]; intros [df w] i v Hin He;
    [contradiction|].
  rewrite for_each_cons.
  pose proof (cell_step_returns str_match mt p pat c (i0, v0) (df, w) Hacc)
    as Hret.
  destruct Hin as [Heq|Hin].
  - injection Heq as -> ->. rewrite cell_step_eq in *. rewrite He in *.
    destruct (float_lt _ p); apply inner_trace; cbn [snd trace];
      apply in_or_app; right; now left.
  - destruct (cell_step p pat c (i0, v0) (df, w)) as [[e|[]] s1];
      [discriminate|]. now apply IH with (v := v).
Qed.

Lemma column_draws (c : string) (s : state) (i : Z) (v : cell) :
  accepts pat ->
  at_get (fst s) i c = Some v -> eligible pat v = inr true ->
  In (Draw c i) (trace (snd (snd (column_step p pat c s)))).
Proof.
  intros Hacc Hget He. rewrite column_step_eq.
  rewrite (at_get_column _ _ _ _ Hget). unfold at_get in Hget.
  destruct (getitem (fst s) c) as [cells|]; [|discriminate].
  apply inner_draws with (v := v); try assumption.
  unfold items. now apply lookup_label_In.
Qed.

Lemma loop_draws (df0 : DataFrame) (cs : list string) :
  accepts pat ->
  forall s,
    drawn_or_kept df0 s ->
    forall c i v,
      In c cs -> at_get df0 i c = Some v -> eligible pat v = inr true ->
      In (Draw c i)
         (trace (snd (snd (for_each (column_step p pat) cs s)))).
Proof.
  intros Hacc. induction cs as [|a cs IH]; intros s HJ c i v Hin Hget He;
    [contradiction|].
  rewrite for_each_cons.
  pose proof (column_step_returns str_match mt p pat a s Hacc) as Hret.
  pose proof (column_step_drawn_or_kept df0 a s HJ) as HJ1.
  pose proof (column_step_trace a s (Draw c i)) as Hgrow.
  assert (Hcol : c = a ->
                 In (Draw c i) (trace (snd (snd (column_step p pat a s))))).
  { intros ->. destruct (HJ i a) as [E|E]; [|now apply Hgrow].
    apply column_draws with (v := v); try assumption. congruence. }
  destruct (column_step p pat a s) as [[e|[]] s1]; [discriminate|].
  cbn [snd] in *.
  destruct (string_dec c a) as [Heq|Hne].
  - apply loop_trace. auto.
  - destruct Hin as [Hin|Hin]; [congruence|].
    now apply IH with (v := v).
Qed.

(** Conversely a number is drawn only for a cell of a column that is
    gone through, and that was eligible in [df0]. *)
Lemma cell_step_justified (df0 : DataFrame) (cs0 : list string) (c : string)
      (i : Z) (v : cell) (s : state) :
  In c cs0 ->
  (eligible pat v = inr true ->
   exists v0, at_get df0 i c = Some v0 /\ eligible pat v0 = inr true) ->
  draws_justified df0 cs0 (trace (snd s)) ->
  draws_justified df0 cs0 (trace (snd (snd (cell_step p pat c (i, v) s)))).
Proof.
  intros Hc Hv HK c' i'. destruct s as [df w]. rewrite cell_step_eq.
  cbn [snd] in *.
  assert (Hvisit : In (Draw c' i') (trace w ++ [Visit c i]) ->
                   In (Draw c' i') (trace w)).
  { intros H. apply in_app_or in H. destruct H as [H|[H|[]]];
      [assumption | discriminate]. }
  destruct (eligible pat v) as [e|[|]]; cbn [snd trace];
    try (intros H; apply HK; now apply Hvisit).
  assert (Hdraw : In (Draw c' i') ((trace w ++ [Visit c i]) ++ [Draw c i]) ->
                  In c' cs0
                  /\ exists v0, at_get df0 i' c' = Some v0
                                 /\ eligible pat v0 = inr true).
  { intros H. apply in_app_or in H. destruct H as [H|[H|[]]].
    - apply HK. now apply Hvisit.
    - injection H as <- <-. split; [assumption | now apply Hv]. }
  destruct (float_lt _ p); exact Hdraw.
Qed.

Lemma column_step_justified (df0 : DataFrame) (cs0 : list string)
      (c : string) (s : state) :
  In c cs0 -> NoDup (index (fst s)) -> decays df0 (fst s) ->
  draws_justified df0 cs0 (trace (snd s)) ->
  draws_justified df0 cs0 (trace (snd (snd (column_step p pat c s)))).
Proof.
  intros Hc Hnd Hdec. rewrite column_step_eq.
  destruct (mem_string c (columns (fst s))); [|auto].
  destruct (getitem (fst s) c) as [cells|] eqn:Eg; [|auto].
  apply for_each_rel with
    (R := fun s1 s2 => draws_justified df0 cs0 (trace (snd s1)) ->
                       draws_justified df0 cs0 (trace (snd s2))); auto.
  intros [i v] s1 Hin. apply cell_step_justified; [assumption|].
  intros He. unfold items in Hin.
  apply In_lookup_label in Hin; [|assumption].
  assert (Hget : at_get (fst s) i c = Some v)
    by (unfold at_get; now rewrite Eg).
  destruct (Hdec i c) as [E|[E Hdef]].
  - exists v. split; congruence.
  - assert (v = VNone) by congruence. subst v.
    destruct (at_get df0 i c) as [v0|]; [|contradiction].
    exists v0. split; [reflexivity|].
    destruct pat as [pt|]; [discriminate | reflexivity].
Qed.

Lemma loop_justified (df0 : DataFrame) (cs0 cs : list string) :
  wf_frame df0 = true -> incl cs cs0 ->
  forall s,
    shape (fst s) = shape df0 -> decays df0 (fst s) ->
    draws_justified df0 cs0 (trace (snd s)) ->
    draws_justified df0 cs0
      (trace (snd (snd (for_each (column_step p pat) cs s)))).
Proof.
  intros Hwf. destruct (wf_frame_parts _ Hwf) as [_ [Hnd _]].
  induction cs as [|a cs IH]; intros Hincl s Hsh Hdec HK; [exact HK|].
  rewrite for_each_cons.
  pose proof (column_step_shape str_match mt p pat a s) as Hsh1.
  pose proof (column_step_decays str_match mt p pat a s) as Hdec1.
  assert (HK1 : draws_justified df0 cs0
                  (trace (snd (snd (column_step p pat a s))))).
  { apply column_step_justified; try assumption.
    - apply Hincl. now left.
    - now rewrite (shape_index _ _ Hsh). }
  destruct (column_step p pat a s) as [[e|[]] s1]; [exact HK1|].
  cbn [snd] in *. apply IH.
  - intros x Hx. apply Hincl. now right.
  - congruence.
  - eapply decays_trans; eassumption.
  - exact HK1.
Qed.

End Eligibility.

Section PatternRestriction.

Variable str_match : string -> string -> exn + bool.
Variable mt : nat -> N.

Local Abbreviation column_step := (Main.column_step str_match mt).
Local Abbreviation inject_body := (Main.inject_body str_match mt).
Local Abbreviation inject_nulls := (Main.inject_nulls str_match mt).
Local Abbreviation eligible := (Main.eligible str_match).


End PatternRestriction.

(* ------------------------------------------------------------------ *)
(** ** Failures during the iteration *)

Section Failure.

Variable str_match : string -> string -> exn + bool.
Variable mt : nat -> N.

Local Abbreviation cell_step := (Main.cell_step str_match mt).
Local Abbreviation column_step := (Main.column_step str_match mt).
Local Abbreviation inject_body := (Main.inject_body str_match mt).
Local Abbreviation inject_nulls := (Main.inject_nulls str_match mt).
Local Abbreviation eligible := (Main.eligible str_match).

Variable p : pyfloat.
Variable pat : string.
Variable e : exn.
Hypothesis Hrej : rejects str_match pat e.

(** With a rejected pattern an iteration raises on a string and passes
    over anything else; either way the frame stays. *)
Lemma cell_step_rejected (c : string) (i : Z) (v : cell) (s : state) :
  fst (snd (cell_step p (Some pat) c (i, v) s)) = fst s
  /\ fst (cell_step p (Some pat) c (i, v) s)
     = match v with
       | VStr _ => inl e
       | _ => inr tt
       end.
Proof.
  destruct s as [df w]. rewrite cell_step_eq.
  destruct v as [str|q|b|]; simpl; try (split; reflexivity).
  rewrite Hrej. split; reflexivity.
Qed.

Lemma inner_rejected (c : string) (ivs : list (Z * cell)) :
  forall s,
    fst (snd (for_each (cell_step p (Some pat) c) ivs s)) = fst s
    /\ (fst (for_each (cell_step p (Some pat) c) ivs s) = inl e
        \/ fst (for_each (cell_step p (Some pat) c) ivs s) = inr tt
           /\ forall i str, ~ In (i, VStr str) ivs).
Proof.
  induction ivs as [|[i v] ivs IH]; intros s.
  - split; [reflexivity|]. right. split; [reflexivity | auto].
  - rewrite for_each_cons.
    destruct (cell_step_rejected c i v s) as [Hf Hr].
    destruct (cell_step p (Some pat) c (i, v) s) as [[e'|[]] s1];
      cbn [fst snd] in *.
    + split; [assumption|]. left.
      destruct v; try discriminate. exact Hr.
    + destruct (IH s1) as [Hf1 Hr1]. split; [congruence|].
      destruct Hr1 as [Hr1|[Hr1 Hno]]; [now left|]. right.
      split; [assumption|]. intros i' str [H|H].
      * injection H as -> ->. discriminate.
      * now apply (Hno i' str).
Qed.

Lemma column_rejected (c : string) (s : state) :
  fst (snd (column_step p (Some pat) c s)) = fst s
  /\ (fst (column_step p (Some pat) c s) = inl e
      \/ fst (column_step p (Some pat) c s) = inr tt
         /\ forall i str, at_get (fst s) i c <> Some (VStr str)).
Proof.
  rewrite column_step_eq.
  destruct (mem_string c (columns (fst s))) eqn:Em.
  - destruct (getitem_mem _ _ Em) as [cells [Eg _]]. rewrite Eg.
    destruct (inner_rejected c (items (fst s) cells) s) as [Hf Hr].
    split; [assumption|]. destruct Hr as [Hr|[Hr Hno]]; [now left|].
    right. split; [assumption|]. intros i str H. unfold at_get in H.
    rewrite Eg in H. apply lookup_label_In in H. now apply (Hno i str).
  - split; [reflexivity|]. right. split; [reflexivity|].
    intros i str H. apply at_get_column in H. congruence.
Qed.

Lemma loop_rejected (cs : list string) :
  forall s,
    fst (snd (for_each (column_step p (Some pat)) cs s)) = fst s
    /\ (fst (for_each (column_step p (Some pat)) cs s) = inl e
        \/ fst (for_each (column_step p (Some pat)) cs s) = inr tt
           /\ forall c i str,
                In c cs -> at_get (fst s) i c <> Some (VStr str)).
Proof.
  induction cs as [|a cs IH]; intros s.
  - split; [reflexivity|]. right. split; [reflexivity|].
    intros c i str [].
  - rewrite for_each_cons. destruct (column_rejected a s) as [Hf Hr].
    destruct (column_step p (Some pat) a s) as [[e'|[]] s1];
      cbn [fst snd] in *.
    + split; [assumption|]. left.
      destruct Hr as [Hr|[Hr _]]; [exact Hr | discriminate].
    + destruct (IH s1) as [Hf1 Hr1]. split; [congruence|].
      destruct Hr as [Hr|[_ Hno]]; [discriminate|].
      destruct Hr1 as [Hr1|[Hr1 Hno1]]; [now left|]. right.
      split; [assumption|]. intros c i str [<-|Hin].
      * apply Hno.
      * rewrite <- Hf. now apply Hno1.
Qed.

End Failure.

Section Reraise.

Variable str_match : string -> string -> exn + bool.
Variable mt : nat -> N.

Local Abbreviation inject_body := (Main.inject_body str_match mt).
Local Abbreviation inject_nulls := (Main.inject_nulls str_match mt).

(** C8.  On a table and with a probability in range, what the call does
    is what the block under [try] does: if the iteration raises [e], the
    call logs [e] at error level as the last record and raises that same
    [e], the table being left as the iteration left it; the call returns
    only if the iteration came to its end, and then logs no error.  In
    particular a pattern that the library rejects with [e] makes the call
    raise [e] as soon as a string cell of a column gone through is
    reached, with the table untouched. *)
Theorem iteration_failure_is_logged_and_reraised
        (df : DataFrame) (probability : pyfloat) (pattern : option string)
        (columns_arg : option (list string)) (w : world) :
  wf_frame df = true ->
  in_unit_interval probability = true ->
  let r := inject_nulls (PDataFrame df) probability pattern columns_arg w in
  let b := inject_body probability pattern columns_arg (df, w) in
  (forall e,
      fst b = inl e ->
      ended r = Raised e
      /\ data_after r = PDataFrame (fst (snd b))
      /\ log (world_after r) = log (snd (snd b)) ++ [error_record e])
  /\ (fst b = inr tt ->
      ended r = Returned
      /\ data_after r = PDataFrame (fst (snd b))
      /\ world_after r = snd (snd b))
  /\ (forall pat e c i str,
        pattern = Some pat -> rejects str_match pat e ->
        In c (resolve df columns_arg) -> at_get df i c = Some (VStr str) ->
        ended r = Raised e
        /\ data_after r = PDataFrame df
        /\ exists L, log (world_after r) = L ++ [error_record e]).
Proof.
  intros Hwf Hp r b. subst r b. rewrite inject_nulls_run by assumption.
  split; [|split].
  - intros e He.
    destruct (inject_body probability pattern columns_arg (df, w))
      as [[e'|[]] s']; cbn [fst snd] in *; [|discriminate].
    injection He as ->. repeat split.
  - intros He.
    destruct (inject_body probability pattern columns_arg (df, w))
      as [[e'|[]] s']; cbn [fst snd] in *; [discriminate|].
    repeat split.
  - intros pat e c i str -> Hrej Hc Hget. rewrite inject_body_eq. cbn [fst].
    destruct (loop_rejected str_match mt probability pat e Hrej
                (resolve df columns_arg) (df, w)) as [Hf Hr].
    destruct Hr as [Hr|[_ Hno]];
      [|exfalso; now apply (Hno c i str Hc)].
    destruct (for_each _ _ _) as [[e'|[]] s']; cbn [fst snd] in *;
      [|discriminate].
    injection Hr as ->. subst. repeat split.
    exists (log (snd s')). reflexivity.
Qed.

End Reraise.

(* ------------------------------------------------------------------ *)
(** ** Argument validation *)

Section Validation.

Variable str_match : string -> string -> exn + bool.
Variable mt : nat -> N.

Local Abbreviation inject_nulls := (Main.inject_nulls str_match mt).

(** C3.  [inject_nulls] validates before it touches anything: an argument
    that is not a DataFrame raises [TypeError], a DataFrame with a
    probability outside [0.0, 1.0] raises [ValueError], and in both cases
    the object passed as [data], the log, the random source and the trace
    are as they were: no cell has been modified. *)
Theorem validation_precedes_mutation
        (data : pyobj) (probability : pyfloat) (pattern : option string)
        (columns_arg : option (list string)) (w : world) :
  is_dataframe data = false \/ in_unit_interval probability = false ->
  let r := inject_nulls data probability pattern columns_arg w in
  ended r
  = (if is_dataframe data
     then Raised (ValueError "Probability must be between 0.0 and 1.0.")
     else Raised (TypeError "Input data must be a pandas DataFrame."))
  /\ data_after r = data
  /\ world_after r = w.
Proof.
  intros H. unfold Main.inject_nulls.
  destruct data as [df| | |]; simpl in *;
    try (repeat split; reflexivity).
  destruct H as [H|H]; [discriminate|]. rewrite H. simpl.
  repeat split; reflexivity.
Qed.

End Validation.

Lemma validation_precedes_mutation_witness :
  (is_dataframe (PDataFrame Sample.fruit) = false
   \/ in_unit_interval (Finite (3 # 2)) = false)
  /\ let r := Main.inject_nulls Re.str_match (Sample.steady 0)
                (PDataFrame Sample.fruit) (Finite (3 # 2)) None None
                Sample.world0 in
     ended r = Raised (ValueError "Probability must be between 0.0 and 1.0.")
     /\ data_after r = PDataFrame Sample.fruit
     /\ world_after r = Sample.world0.
Proof.
  split.
  - right. reflexivity.
  - apply (validation_precedes_mutation Re.str_match (Sample.steady 0)
             (PDataFrame Sample.fruit) (Finite (3 # 2)) None None
             Sample.world0).
    right. reflexivity.
Defined.

(* ------------------------------------------------------------------ *)
(** ** The properties on sample data *)


Example certain_injection_abc :
  data_after (Main.inject_nulls Re.str_match (Sample.steady 7)
                (PDataFrame Sample.abc) (Finite 1) None None Sample.world0)
  = PDataFrame {| index := [0; 1];
                  series := [("A", [VNone; VNone]);
                             ("B", [VNone; VNone]);
                             ("C", [VNone; VNone])] |}.
Proof. vm_compute. reflexivity. Qed.

Lemma accepts_caret_a : accepts Re.str_match (Some "^a").
Proof.
  intros pat E. injection E as <-. intros s. eexists. reflexivity.
Defined.

Lemma zero_probability_changes_no_cell_witness :
  accepts Re.str_match (Some "^a")
  /\ let r := Main.inject_nulls Re.str_match (Sample.steady 0)
                (PDataFrame Sample.fruit) (Finite 0) (Some "^a")
                (Some ["name"]) Sample.world0 in
     data_after r = PDataFrame Sample.fruit /\ ended r = Returned.
Proof.
  split.
  - exact accepts_caret_a.
  - destruct (zero_probability_changes_no_cell Re.str_match (Sample.steady 0)
                Sample.fruit (Some "^a") (Some ["name"]) Sample.world0)
      as [Hdata Hret].
    split; [exact Hdata | exact (Hret accepts_caret_a)].
Defined.

(** C2 as stated fails on a pattern the library rejects: at probability
    0.0 the call on a table with a string cell does not return the table,
    it raises. *)
Lemma zero_probability_rejected_pattern_raises :
  let r := Main.inject_nulls Re.str_match (Sample.steady 0)
             (PDataFrame Sample.fruit) (Finite 0) (Some "*") None
             Sample.world0 in
  ended r = Raised (re_error "nothing to repeat" 0)
  /\ ended r <> Returned.
Proof. vm_compute. split; [reflexivity | discriminate]. Qed.



(** The restriction [--columns A,C] as [main] passes it on. *)
Example restriction_A_C :
  Main.columns_of_arg (Some "A,C") = Some ["A"; "C"]
  /\ data_after (Main.inject_nulls Re.str_match (Sample.steady 7)
                   (PDataFrame Sample.abc) (Finite 1) None
                   (Main.columns_of_arg (Some "A,C")) Sample.world0)
     = PDataFrame {| index := [0; 1];
                     series := [("A", [VNone; VNone]);
                                ("B", [VNum 2; VStr "y"]);
                                ("C", [VNone; VNone])] |}.
Proof. vm_compute. split; reflexivity. Qed.

Lemma column_names_are_trimmed_witness :
  forallb well_padded
    [{| before := " "; name := "A"; after := " " |};
     {| before := ""; name := "Z"; after := "  " |}] = true
  /\ Main.inject_nulls Re.str_match (Sample.steady 0)
       (PDataFrame Sample.abc) (Finite 1) None (Some [" A "; "Z  "])
       Sample.world0
     = Main.inject_nulls Re.str_match (Sample.steady 0)
         (PDataFrame Sample.abc) (Finite 1) None (Some ["A"; "Z"])
         Sample.world0
  /\ resolve Sample.abc (Some [" A "; "Z  "]) = ["A"; "Z"].
Proof.
  split.
  - reflexivity.
  - apply (column_names_are_trimmed Re.str_match (Sample.steady 0)
             Sample.abc (Finite 1) None
             [{| before := " "; name := "A"; after := " " |};
              {| before := ""; name := "Z"; after := "  " |}]
             Sample.world0).
    reflexivity.
Defined.

(** A name with a blank and a tab around it selects the column, and the
    warning for an unknown name shows the stripped name. *)
Example padded_name_selects :
  let r := Main.inject_nulls Re.str_match (Sample.steady 7)
             (PDataFrame Sample.ab) (Finite 1) None
             (Some [String (ascii_of_nat 9) "A "; " Q "]) Sample.world0 in
  data_after r
  = PDataFrame {| index := [0; 1];
                  series := [("A", [VNone; VNone]);
                             ("B", [VNum 2; VStr "y"])] |}
  /\ In {| levelname := WARNING;
           message := "Column 'Q' not found. Skipping." |}
        (log (world_after r)).
Proof. vm_compute. split; [reflexivity | auto]. Qed.

Lemma unknown_column_is_skipped_witness :
  mem_string (Str.strip "Z") (columns Sample.ab) = false
  /\ let r := Main.inject_nulls Re.str_match (Sample.steady 0)
                (PDataFrame Sample.ab) (Finite 1) None
                (Some (["A"] ++ "Z" :: ["B"])) Sample.world0 in
     let r0 := Main.inject_nulls Re.str_match (Sample.steady 0)
                 (PDataFrame Sample.ab) (Finite 1) None
                 (Some (["A"] ++ ["B"])) Sample.world0 in
     ended r = ended r0
     /\ data_after r = data_after r0
     /\ rng (world_after r) = rng (world_after r0)
     /\ trace (world_after r) = trace (world_after r0)
     /\ ((exists L D,
            log (world_after r0) = L ++ D
            /\ log (world_after r)
               = L ++ not_found_record (Str.strip "Z") :: D)
         \/ (r = r0 /\ ended r <> Returned)).
Proof.
  split.
  - reflexivity.
  - apply (unknown_column_is_skipped Re.str_match (Sample.steady 0)
             Sample.ab (Finite 1) None ["A"] ["B"] "Z" Sample.world0).
    reflexivity.
Defined.

(** The table with columns A and B and the names A, Z, B: no exception,
    both columns processed, one warning for Z between them. *)
Example unknown_Z :
  Main.inject_nulls Re.str_match (Sample.steady 7) (PDataFrame Sample.ab)
    (Finite 1) None (Some ["A"; "Z"; "B"]) Sample.world0
  = {| ended := Returned;
       data_after :=
         PDataFrame {| index := [0; 1];
                       series := [("A", [VNone; VNone]);
                                  ("B", [VNone; VNone])] |};
       world_after :=
         {| log := [{| levelname := DEBUG;
                       message := "Replaced value at index 0, column 'A' with None." |};
                    {| levelname := DEBUG;
                       message := "Replaced value at index 1, column 'A' with None." |};
                    {| levelname := WARNING;
                       message := "Column 'Z' not found. Skipping." |};
                    {| levelname := DEBUG;
                       message := "Replaced value at index 0, column 'B' with None." |};
                    {| levelname := DEBUG;
                       message := "Replaced value at index 1, column 'B' with None." |}];
            rng := 4;
            trace := [Visit "A" 0; Draw "A" 0; Visit "A" 1; Draw "A" 1;
                      Visit "B" 0; Draw "B" 0; Visit "B" 1; Draw "B" 1] |} |}.
Proof. vm_compute. reflexivity. Qed.

Lemma visits_follow_the_plan_witness :
  wf_frame Sample.ab = true
  /\ trace Sample.world0 = []
  /\ let r := Main.inject_nulls Re.str_match (Sample.steady 0)
                (PDataFrame Sample.ab) (Finite (1 # 2)) (Some "^x")
                (Some ["B"; "A"]) Sample.world0 in
     let tr := trace (world_after r) in
     (exists rest,
         plan Sample.ab (resolve Sample.ab (Some ["B"; "A"]))
         = visits tr ++ rest
         /\ (ended r = Returned -> rest = []))
     /\ (forall c i, times (Draw c i) tr <= times (Visit c i) tr)%nat
     /\ (forall c i,
           times (Visit c i) tr
           <= count_occ string_dec (resolve Sample.ab (Some ["B"; "A"])) c)%nat
     /\ (NoDup (resolve Sample.ab (Some ["B"; "A"])) ->
         forall c i,
           times (Visit c i) tr <= 1 /\ times (Draw c i) tr <= 1)%nat
     /\ NoDup (resolve Sample.ab None).
Proof.
  split; [reflexivity|]. split; [reflexivity|].
  apply (visits_follow_the_plan Re.str_match (Sample.steady 0) Sample.ab
           (Finite (1 # 2)) (Some "^x") (Some ["B"; "A"]) Sample.world0);
    reflexivity.
Defined.

(** C7 as stated fails when a column is named twice: its cells are
    visited twice and a number is drawn for them twice. *)
Lemma column_named_twice_is_sampled_twice :
  let r := Main.inject_nulls Re.str_match (Sample.steady 0)
             (PDataFrame Sample.one) (Finite 1) None (Some ["A"; "A"])
             Sample.world0 in
  trace (world_after r)
  = [Visit "A" 0; Draw "A" 0; Visit "A" 0; Draw "A" 0]
  /\ times (Visit "A" 0) (trace (world_after r)) = 2%nat
  /\ times (Draw "A" 0) (trace (world_after r)) = 2%nat
  /\ rng (world_after r) = 2%nat.
Proof. vm_compute. repeat split; reflexivity. Qed.


(** The values apple, banana, avocado with the pattern [^a] at
    probability 1.0. *)
Example pattern_caret_a :
  let r := Main.inject_nulls Re.str_match (Sample.steady 7)
             (PDataFrame Sample.fruit) (Finite 1) (Some "^a") None
             Sample.world0 in
  ended r = Returned
  /\ data_after r
     = PDataFrame {| index := [0; 1; 2];
                     series := [("name", [VNone; VStr "banana"; VNone])] |}
  /\ trace (world_after r)
     = [Visit "name" 0; Draw "name" 0; Visit "name" 1;
        Visit "name" 2; Draw "name" 2].
Proof. vm_compute. repeat split; reflexivity. Qed.

(** [str.match] looks at the start of the string: unlike a search it
    does not find a later occurrence, unlike a full match it does not
    need the whole string. *)
Example match_is_anchored_at_the_start :
  Re.str_match "a" "banana" = inr false
  /\ Re.str_match "a" "apple" = inr true
  /\ Re.str_match "an" "banana" = inr false
  /\ Re.str_match "b.n" "banana" = inr true
  /\ (exists r, Re.compile "a" = Re.Compiled r
                /\ Re.exec_search r "banana" = true
                /\ Re.exec_fullmatch r "apple" = false
                /\ Re.exec_match r "apple" = true).
Proof.
  repeat split; try reflexivity.
  eexists. repeat split; reflexivity.
Qed.

(** Values that are not strings are never matched, whatever they look
    like. *)
Example numbers_are_not_eligible :
  let df := {| index := [0; 1; 2];
               series := [("n", [VNum 1; VBool true; VStr "1"])] |} in
  data_after (Main.inject_nulls Re.str_match (Sample.steady 7)
                (PDataFrame df) (Finite 1) (Some ".") None Sample.world0)
  = PDataFrame {| index := [0; 1; 2];
                  series := [("n", [VNum 1; VBool true; VNone])] |}.
Proof. vm_compute. reflexivity. Qed.

Lemma rejects_star : rejects Re.str_match "*" (re_error "nothing to repeat" 0).
Proof. intros s. reflexivity. Defined.

Lemma iteration_failure_is_logged_and_reraised_witness :
  wf_frame Sample.abc = true
  /\ in_unit_interval (Finite (1 # 2)) = true
  /\ let r := Main.inject_nulls Re.str_match (Sample.steady 0)
                (PDataFrame Sample.abc) (Finite (1 # 2)) (Some "*")
                (Some ["C"; "B"; "A"]) Sample.world0 in
     ended r = Raised (re_error "nothing to repeat" 0)
     /\ data_after r = PDataFrame Sample.abc
     /\ exists L,
         log (world_after r)
         = L ++ [error_record (re_error "nothing to repeat" 0)].
Proof.
  split; [reflexivity|]. split; [reflexivity|].
  destruct (iteration_failure_is_logged_and_reraised Re.str_match
              (Sample.steady 0) Sample.abc (Finite (1 # 2)) (Some "*")
              (Some ["C"; "B"; "A"]) Sample.world0 eq_refl eq_refl)
    as [_ [_ H]].
  apply (H "*" (re_error "nothing to repeat" 0) "B" 1 "y" eq_refl rejects_star).
  - simpl. auto.
  - reflexivity.
Defined.

(* ------------------------------------------------------------------ *)
(** ** Further properties of [inject_nulls] *)

Lemma draws_app (t1 t2 : list event) :
  draws (t1 ++ t2) = (draws t1 + draws t2)%nat.
Proof. unfold draws. now rewrite filter_app, length_app. Qed.

Lemma visits_length_app (t1 t2 : list event) :
  List.length (visits (t1 ++ t2))
  = (List.length (visits t1) + List.length (visits t2))%nat.
Proof. now rewrite visits_app, length_app. Qed.

Section Footprint.

Variable str_match : string -> string -> exn + bool.
Variable mt : nat -> N.

Local Abbreviation cell_step := (Main.cell_step str_match mt).
Local Abbreviation column_step := (Main.column_step str_match mt).
Local Abbreviation inject_body := (Main.inject_body str_match mt).
Local Abbreviation inject_nulls := (Main.inject_nulls str_match mt).
Local Abbreviation eligible := (Main.eligible str_match).



(** X6.  Going through the names [l1 ++ l2] is going through [l1] and,
    if that returns, through [l2] on the table and in the world the first
    call leaves; if the first call raises, the call with all the names
    raises in the same way, at the same point. *)
Theorem names_compose
        (df : DataFrame) (probability : pyfloat) (pattern : option string)
        (l1 l2 : list string) (w : world) :
  in_unit_interval probability = true ->
  let r1 := inject_nulls (PDataFrame df) probability pattern (Some l1) w in
  let r := inject_nulls (PDataFrame df) probability pattern
             (Some (l1 ++ l2)) w in
  (ended r1 = Returned ->
   r = inject_nulls (data_after r1) probability pattern (Some l2)
         (world_after r1))
  /\ (ended r1 <> Returned -> r = r1).
Proof.
  intros Hp r1 r. subst r1 r. rewrite !inject_nulls_run by assumption.
  rewrite !inject_body_eq. cbn [fst resolve]. rewrite map_app, for_each_app.
  destruct (for_each _ (map Str.strip l1) (df, w)) as [[e|[]] [df1 w1]];
    cbn [ended data_after world_after fst snd]; split;
    try discriminate; try (intros H; now contradiction H).
  - intros _. reflexivity.
  - intros _. rewrite inject_nulls_run by assumption.
    rewrite inject_body_eq. reflexivity.
Qed.

Variable p : pyfloat.
Variable pat : option string.

Lemma cell_step_rng (c : string) (iv : Z * cell) (s : state) :
  (rng (snd (snd (cell_step p pat c iv s))) + draws (trace (snd s))
   = rng (snd s) + draws (trace (snd (snd (cell_step p pat c iv s)))))%nat.
Proof.
  destruct iv as [i v], s as [df w]. rewrite cell_step_eq. cbn [snd].
  destruct (eligible pat v) as [e|[|]]; cbn [snd rng trace].
  - rewrite draws_app. unfold draws. simpl. lia.
  - destruct (float_lt _ p); cbn [snd rng trace];
      rewrite !draws_app; unfold draws; simpl; lia.
  - rewrite draws_app. unfold draws. simpl. lia.
Qed.

Lemma loop_rng (cs : list string) (s : state) :
  (rng (snd (snd (for_each (column_step p pat) cs s))) + draws (trace (snd s))
   = rng (snd s)
     + draws (trace (snd (snd (for_each (column_step p pat) cs s)))))%nat.
Proof.
  apply columns_loop_rel with
    (R := fun s s' => (rng (snd s') + draws (trace (snd s))
                       = rng (snd s) + draws (trace (snd s')))%nat).
  - reflexivity.
  - intros s1 s2 s3 H1 H2. lia.
  - intros s0 L. reflexivity.
  - intros c iv s0 _. apply cell_step_rng.
Qed.

Lemma cell_step_drawn_visited (c : string) (iv : Z * cell) (s : state) :
  let s' := snd (cell_step p pat c iv s) in
  (draws (trace (snd s')) + List.length (visits (trace (snd s)))
   <= draws (trace (snd s)) + List.length (visits (trace (snd s'))))%nat
  /\ (pat = None ->
      (draws (trace (snd s')) + List.length (visits (trace (snd s)))
       = draws (trace (snd s)) + List.length (visits (trace (snd s'))))%nat).
Proof.
  destruct iv as [i v], s as [df w]. rewrite cell_step_eq. cbn [snd].
  destruct (eligible pat v) as [e|[|]] eqn:E; cbn [snd trace].
  - rewrite draws_app, visits_length_app. unfold draws. simpl.
    split; [lia|]. intros ->. discriminate.
  - destruct (float_lt _ p); cbn [snd trace];
      rewrite !draws_app, !visits_length_app; unfold draws; simpl;
      split; try intros _; lia.
  - rewrite draws_app, visits_length_app. unfold draws. simpl.
    split; [lia|]. intros ->. discriminate.
Qed.

Lemma loop_drawn_visited (cs : list string) (s : state) :
  let s' := snd (for_each (column_step p pat) cs s) in
  (draws (trace (snd s')) + List.length (visits (trace (snd s)))
   <= draws (trace (snd s)) + List.length (visits (trace (snd s'))))%nat
  /\ (pat = None ->
      (draws (trace (snd s')) + List.length (visits (trace (snd s)))
       = draws (trace (snd s)) + List.length (visits (trace (snd s'))))%nat).
Proof.
  cbv zeta.
  apply columns_loop_rel with
    (R := fun s s' =>
            (draws (trace (snd s')) + List.length (visits (trace (snd s)))
             <= draws (trace (snd s)) + List.length (visits (trace (snd s'))))%nat
            /\ (pat = None ->
                (draws (trace (snd s')) + List.length (visits (trace (snd s)))
                 = draws (trace (snd s))
                   + List.length (visits (trace (snd s'))))%nat)).
  - intros s0. split; [lia | intros _; lia].
  - intros s1 s2 s3 [H1 H1'] [H2 H2']. split; [lia|].
    intros E. specialize (H1' E). specialize (H2' E). lia.
  - intros s0 L. cbn [snd trace]. split; [lia | intros _; lia].
  - intros c iv s0 _. apply cell_step_drawn_visited.
Qed.

End Footprint.

Lemma plan_length (df : DataFrame) (cs : list string) :
  (forall c, In c cs -> mem_string c (columns df) = true) ->
  List.length (plan df cs) = (List.length cs * List.length (index df))%nat.
Proof.
  induction cs as [|a cs IH]; intros H; [reflexivity|].
  simpl plan. rewrite length_app, IH by (intros c Hc; apply H; now right).
  unfold column_plan. rewrite (H a (or_introl eq_refl)), length_map.
  simpl. lia.
Qed.

Section Consumption.

Variable str_match : string -> string -> exn + bool.
Variable mt : nat -> N.

Local Abbreviation column_step := (Main.column_step str_match mt).
Local Abbreviation inject_nulls := (Main.inject_nulls str_match mt).


End Consumption.

Section Logging.

Variable str_match : string -> string -> exn + bool.
Variable mt : nat -> N.

Local Abbreviation cell_step := (Main.cell_step str_match mt).
Local Abbreviation column_step := (Main.column_step str_match mt).
Local Abbreviation inject_nulls := (Main.inject_nulls str_match mt).
Local Abbreviation eligible := (Main.eligible str_match).

Variable p : pyfloat.
Variable pat : option string.

Lemma inner_log (c : string) (ivs : list (Z * cell)) (s : state) :
  exists added,
    log (snd (snd (for_each (cell_step p pat c) ivs s)))
    = log (snd s) ++ added
    /\ Forall (fun r => levelname r = DEBUG) added.
Proof.
  apply for_each_rel with
    (R := fun s s' => exists added,
              log (snd s') = log (snd s) ++ added
              /\ Forall (fun r => levelname r = DEBUG) added).
  - intros s0. exists []. now rewrite app_nil_r.
  - intros s1 s2 s3 [a1 [E1 F1]] [a2 [E2 F2]]. exists (a1 ++ a2).
    rewrite E2, E1, app_assoc. split; [reflexivity|].
    apply Forall_app. now split.
  - intros [i v] [df w] _. rewrite cell_step_eq. cbn [snd].
    destruct (eligible pat v) as [e|[|]]; cbn [snd log];
      try (exists []; now rewrite app_nil_r).
    destruct (float_lt _ p); cbn [snd log];
      [|exists []; now rewrite app_nil_r].
    eexists. split; [reflexivity|]. repeat constructor.
Qed.

Lemma column_log (c : string) (s : state) :
  exists added,
    log (snd (snd (column_step p pat c s))) = log (snd s) ++ added
    /\ Forall quiet added
    /\ filter is_warning added
       = if absent (fst s) c then [not_found_record c] else [].
Proof.
  rewrite column_step_eq. unfold absent.
  destruct (mem_string c (columns (fst s))); cbn [negb].
  - assert (H : forall added,
               Forall (fun r => levelname r = DEBUG) added ->
               Forall quiet added /\ filter is_warning added = []).
    { induction added as [|r added IH]; intros HF; [now split|].
      inversion HF as [|? ? Hr Hrest]; subst.
      destruct (IH Hrest) as [H1 H2]. split.
      - constructor; [now left | assumption].
      - simpl. unfold is_warning at 1. now rewrite Hr. }
    destruct (getitem (fst s) c) as [cells|].
    + destruct (inner_log c (items (fst s) cells) s) as [added [E HF]].
      exists added. split; [assumption | now apply H].
    + exists []. cbn [snd]. rewrite app_nil_r. now repeat split.
  - eexists. cbn [snd log]. split; [reflexivity|]. split.
    + constructor; [now right | constructor].
    + reflexivity.
Qed.

Lemma loop_log (df0 : DataFrame) (cs : list string) :
  forall s,
    shape (fst s) = shape df0 ->
    exists added,
      log (snd (snd (for_each (column_step p pat) cs s)))
      = log (snd s) ++ added
      /\ Forall quiet added
      /\ (fst (for_each (column_step p pat) cs s) = inr tt ->
          filter is_warning added
          = map not_found_record (filter (absent df0) cs)).
Proof.
  induction cs as [|a cs IH]; intros s Hsh.
  - exists []. cbn [for_each ret snd]. rewrite app_nil_r. now repeat split.
  - rewrite for_each_cons.
    destruct (column_log a s) as [a1 [E1 [F1 W1]]].
    pose proof (column_step_shape str_match mt p pat a s) as Hsh1.
    assert (Ea : absent (fst s) a = absent df0 a).
    { unfold absent. now rewrite (shape_columns _ _ Hsh). }
    rewrite Ea in W1.
    destruct (column_step p pat a s) as [[e|[]] s1]; cbn [fst snd] in *.
    + exists a1. split; [assumption|]. split; [assumption | discriminate].
    + destruct (IH s1) as [a2 [E2 [F2 W2]]]; [congruence|].
      exists (a1 ++ a2). rewrite E2, E1, app_assoc. split; [reflexivity|].
      split; [apply Forall_app; now split|].
      intros Hret. rewrite filter_app, W1, (W2 Hret). cbn [filter].
      destruct (absent df0 a); reflexivity.
Qed.

End Logging.

Section LogDiscipline.

Variable str_match : string -> string -> exn + bool.
Variable mt : nat -> N.

Local Abbreviation inject_nulls := (Main.inject_nulls str_match mt).

(** X3.  A call with valid arguments adds to the log records at debug
    and warning level only, followed by a single error record when, and
    only when, it raises: it never logs at info level and never logs an
    error and returns. *)
Theorem log_levels
        (df : DataFrame) (probability : pyfloat) (pattern : option string)
        (columns_arg : option (list string)) (w : world) :
  in_unit_interval probability = true ->
  let r := inject_nulls (PDataFrame df) probability pattern columns_arg w in
  exists added,
    Forall quiet added
    /\ log (world_after r)
       = log w ++ added ++ match ended r with
                           | Returned => []
                           | Raised e => [error_record e]
                           end.
Proof.
  intros Hp r. subst r. rewrite inject_nulls_run by assumption.
  rewrite inject_body_eq. cbn [fst].
  destruct (loop_log str_match mt probability pattern df
              (resolve df columns_arg) (df, w) eq_refl)
    as [added [E [F _]]].
  exists added. split; [assumption|].
  destruct (for_each _ _ _) as [[e|[]] s'];
    cbn [snd fst world_after ended log] in *; rewrite E.
  - now rewrite app_assoc.
  - now rewrite app_nil_r.
Qed.

(** X4.  A call that returns has logged one warning for each resolved
    name that is not a column of the table, in the order of the names
    (a name given twice is reported twice), and no other warning. *)
Theorem warnings_name_the_unknown_columns
        (df : DataFrame) (probability : pyfloat) (pattern : option string)
        (columns_arg : option (list string)) (w : world) :
  let r := inject_nulls (PDataFrame df) probability pattern columns_arg w in
  ended r = Returned ->
  exists added,
    log (world_after r) = log w ++ added
    /\ filter is_warning added
       = map not_found_record (filter (absent df) (resolve df columns_arg)).
Proof.
  intros r. subst r. destruct (in_unit_interval probability) eqn:Hp.
  - rewrite inject_nulls_run by assumption. rewrite inject_body_eq.
    cbn [fst].
    destruct (loop_log str_match mt probability pattern df
                (resolve df columns_arg) (df, w) eq_refl)
      as [added [E [_ W]]].
    destruct (for_each _ _ _) as [[e|[]] s'];
      cbn [snd fst world_after ended log] in *; [discriminate|].
    intros _. exists added. split; [assumption | now apply W].
  - rewrite inject_nulls_invalid by assumption. discriminate.
Qed.

End LogDiscipline.

(* ------------------------------------------------------------------ *)
(** ** The result for a given random stream *)

Lemma update_col_compose (c : string) (f g : list cell -> list cell)
      (ser : list (string * list cell)) :
  update_col c f (update_col c g ser) = update_col c (fun x => f (g x)) ser.
Proof.
  unfold update_col. rewrite map_map. apply map_ext. intros [name cells].
  cbn [fst snd]. destruct (String.eqb name c) eqn:E; cbn [fst snd];
    now rewrite E.
Qed.

Lemma update_col_ext (c : string) (f g : list cell -> list cell)
      (ser : list (string * list cell)) :
  (forall q, In q ser -> fst q = c -> f (snd q) = g (snd q)) ->
  update_col c f ser = update_col c g ser.
Proof.
  intros H. unfold update_col. apply map_ext_in. intros q Hin.
  destruct (String.eqb (fst q) c) eqn:E; [|reflexivity].
  apply String.eqb_eq in E. now rewrite (H q Hin E).
Qed.

Lemma update_col_other (c : string) (f : list cell -> list cell)
      (ser : list (string * list cell)) :
  ~ In c (map fst ser) -> update_col c f ser = ser.
Proof.
  intros H. unfold update_col. rewrite <- (map_id ser) at 2.
  apply map_ext_in. intros q Hin.
  destruct (String.eqb (fst q) c) eqn:E; [|reflexivity].
  apply String.eqb_eq in E. exfalso. apply H. rewrite <- E. now apply in_map.
Qed.

Lemma update_col_here (c : string) (f : list cell -> list cell)
      (done rest : list (string * list cell)) (cells : list cell) :
  ~ In c (map fst done) -> ~ In c (map fst rest) ->
  update_col c f (done ++ (c, cells) :: rest) = done ++ (c, f cells) :: rest.
Proof.
  intros Hd Hr. unfold update_col. rewrite map_app. cbn [map fst snd].
  rewrite String.eqb_refl.
  change (map (fun q => if String.eqb (fst q) c then (fst q, f (snd q)) else q)
              done) with (update_col c f done).
  change (map (fun q => if String.eqb (fst q) c then (fst q, f (snd q)) else q)
              rest) with (update_col c f rest).
  now rewrite !update_col_other.
Qed.

Lemma at_set_update (df : DataFrame) (i : Z) (c : string) (v : cell) :
  at_set df i c v
  = {| index := index df;
       series := update_col c (set_label (index df) i v) (series df) |}.
Proof. reflexivity. Qed.

Lemma set_label_absent (ls : list Z) (i : Z) (v : cell) (cells : list cell) :
  ~ In i ls -> set_label ls i v cells = cells.
Proof.
  revert cells. induction ls as [|l ls IH]; intros [|x xs] H; try reflexivity.
  simpl. destruct (Z.eqb l i) eqn:E.
  - apply Z.eqb_eq in E. subst. exfalso. apply H. now left.
  - rewrite IH; [reflexivity|]. intros Hin. apply H. now right.
Qed.

Lemma set_label_here (pre rest : list Z) (i : Z) (v x : cell)
      (cpre xs : list cell) :
  ~ In i pre -> ~ In i rest -> List.length cpre = List.length pre ->
  set_label (pre ++ i :: rest) i v (cpre ++ x :: xs) = cpre ++ v :: xs.
Proof.
  revert cpre. induction pre as [|l pre IH]; intros [|c0 cpre] Hp Hr Hlen;
    simpl in Hlen; try discriminate.
  - simpl. rewrite Z.eqb_refl. now rewrite set_label_absent.
  - simpl. destruct (Z.eqb l i) eqn:E.
    + apply Z.eqb_eq in E. subst. exfalso. apply Hp. now left.
    + rewrite IH; [reflexivity | | assumption | lia].
      intros Hin. apply Hp. now right.
Qed.

Lemma mask_cells_length (mt : nat -> N) (p : pyfloat) (n : nat)
      (cells : list cell) :
  List.length (mask_cells mt p n cells) = List.length cells.
Proof.
  revert n. induction cells as [|v vs IH]; intros n; simpl; auto.
Qed.

Lemma mask_labels_cells (mt : nat -> N) (p : pyfloat) (todo : list Z) :
  forall pre cpre crest n,
    NoDup (pre ++ todo) ->
    List.length cpre = List.length pre ->
    List.length crest = List.length todo ->
    mask_labels mt p (pre ++ todo) n todo (cpre ++ crest)
    = cpre ++ mask_cells mt p n crest.
Proof.
  induction todo as [|l todo IH]; intros pre cpre [|x xs] n Hnd Hp Ht;
    simpl in Ht; try discriminate; [reflexivity|].
  assert (Hl : ~ In l pre /\ ~ In l todo).
  { apply NoDup_remove_2 in Hnd. split; intros H; apply Hnd;
      apply in_or_app; auto. }
  destruct Hl as [Hl1 Hl2].
  cbn [mask_labels mask_cells].
  assert (E : (if float_lt (Main.sample mt n) p
               then set_label (pre ++ l :: todo) l VNone (cpre ++ x :: xs)
               else cpre ++ x :: xs)
              = (cpre ++ [if float_lt (Main.sample mt n) p then VNone else x])
                  ++ xs).
  { rewrite <- app_assoc. cbn [app].
    destruct (float_lt (Main.sample mt n) p); [|reflexivity].
    now apply set_label_here. }
  rewrite E.
  replace (pre ++ l :: todo) with ((pre ++ [l]) ++ todo)
    by (now rewrite <- app_assoc).
  rewrite IH.
  - now rewrite <- app_assoc.
  - now rewrite <- app_assoc.
  - rewrite !length_app. simpl. lia.
  - lia.
Qed.

Section Exact.

Variable str_match : string -> string -> exn + bool.
Variable mt : nat -> N.

Local Abbreviation cell_step := (Main.cell_step str_match mt).
Local Abbreviation column_step := (Main.column_step str_match mt).
Local Abbreviation inject_body := (Main.inject_body str_match mt).
Local Abbreviation inject_nulls := (Main.inject_nulls str_match mt).

Variable p : pyfloat.

(** The inner loop without pattern. *)
Lemma inner_exact (c : string) (ivs : list (Z * cell)) :
  forall df w,
    let res := for_each (cell_step p None c) ivs (df, w) in
    fst res = inr tt
    /\ fst (snd res)
       = {| index := index df;
            series := update_col c
                        (mask_labels mt p (index df) (rng w) (map fst ivs))
                        (series df) |}
    /\ rng (snd (snd res)) = (rng w + List.length ivs)%nat.
Proof.
  induction ivs as [|[i v] ivs IH]; intros df w; cbv zeta.
  - cbn [for_each ret fst snd map mask_labels List.length].
    split; [reflexivity|]. split; [|lia].
    unfold update_col.
    rewrite (map_ext_in _ (fun q => q)), map_id; [now destruct df|].
    intros q _. destruct (String.eqb (fst q) c); [now destruct q | reflexivity].
  - rewrite for_each_cons, cell_step_eq. cbn [Main.eligible].
    destruct (float_lt (Main.sample mt (rng w)) p) eqn:E.
    + match goal with
      | |- context [for_each _ ivs ?s1] =>
          destruct (IH (fst s1) (snd s1)) as [H1 [H2 H3]]
      end.
      cbv zeta in *. cbn [fst snd rng] in *.
      split; [assumption|]. split; [|cbn [List.length]; lia].
      rewrite H2, at_set_update. cbn [index series map fst mask_labels].
      rewrite update_col_compose, E. reflexivity.
    + match goal with
      | |- context [for_each _ ivs ?s1] =>
          destruct (IH (fst s1) (snd s1)) as [H1 [H2 H3]]
      end.
      cbv zeta in *. cbn [fst snd rng] in *.
      split; [assumption|]. split; [|cbn [List.length]; lia].
      rewrite H2. cbn [map fst mask_labels]. now rewrite E.
Qed.

(** One pass without pattern over a column of the table. *)
Lemma column_exact (idx : list Z) (done rest : list (string * list cell))
      (c : string) (cells : list cell) (w : world) :
  NoDup idx ->
  NoDup (map fst (done ++ (c, cells) :: rest)) ->
  List.length cells = List.length idx ->
  let res := column_step p None c
               ({| index := idx; series := done ++ (c, cells) :: rest |}, w) in
  fst res = inr tt
  /\ fst (snd res)
     = {| index := idx;
          series := done ++ (c, mask_cells mt p (rng w) cells) :: rest |}
  /\ rng (snd (snd res)) = (rng w + List.length idx)%nat.
Proof.
  intros Hidx Hnd Hlen. cbv zeta. rewrite column_step_eq. cbn [fst].
  set (df := {| index := idx; series := done ++ (c, cells) :: rest |}).
  assert (Hc : ~ In c (map fst done) /\ ~ In c (map fst rest)).
  { rewrite map_app in Hnd. cbn [map fst] in Hnd.
    apply NoDup_remove_2 in Hnd. split; intros H; apply Hnd;
      apply in_or_app; auto. }
  destruct Hc as [Hc1 Hc2].
  assert (Hget : getitem df c = Some cells).
  { apply getitem_unique; [exact Hnd|]. subst df. cbn [series].
    apply in_or_app. right. now left. }
  assert (Hmem : mem_string c (columns df) = true).
  { apply mem_string_In. unfold columns. subst df. cbn [series].
    rewrite map_app. apply in_or_app. right. now left. }
  rewrite Hmem, Hget.
  destruct (inner_exact c (items df cells) df w) as [H1 [H2 H3]].
  cbv zeta in *. subst df. unfold items in *. cbn [index series] in *.
  rewrite map_fst_combine in H2 by assumption.
  rewrite update_col_here in H2 by assumption.
  pose proof (mask_labels_cells mt p idx [] [] cells (rng w)) as Hm.
  cbn [app List.length] in Hm. rewrite Hm in H2 by auto.
  rewrite length_combine in H3.
  split; [assumption|]. split; [assumption | lia].
Qed.

(** The outer loop without pattern over the columns of the table that
    are still to do. *)
Lemma loop_exact (idx : list Z) (todo : list (string * list cell)) :
  NoDup idx ->
  forall done w,
    NoDup (map fst (done ++ todo)) ->
    Forall (fun q => List.length (snd q) = List.length idx) todo ->
    let res := for_each (column_step p None) (map fst todo)
                 ({| index := idx; series := done ++ todo |}, w) in
    fst res = inr tt
    /\ fst (snd res)
       = {| index := idx;
            series := done ++ mask_series mt p (rng w) (List.length idx) todo |}
    /\ rng (snd (snd res))
       = (rng w + List.length todo * List.length idx)%nat.
Proof.
  intros Hidx. induction todo as [|[c cells] todo IH];
    intros done w Hnd Hlen; cbv zeta.
  - cbn [map for_each ret fst snd mask_series List.length].
    repeat split. lia.
  - cbn [map fst]. rewrite for_each_cons.
    inversion Hlen as [|? ? Hc Hrest]; subst. cbn [snd] in Hc.
    destruct (column_exact idx done todo c cells w Hidx Hnd Hc)
      as [H1 [H2 H3]].
    cbv zeta in *.
    destruct (column_step p None c _) as [[e|[]] [df1 w1]];
      [discriminate|]. cbn [fst snd] in *. subst df1.
    replace (done ++ (c, mask_cells mt p (rng w) cells) :: todo)
      with ((done ++ [(c, mask_cells mt p (rng w) cells)]) ++ todo)
      by (now rewrite <- app_assoc).
    destruct (IH (done ++ [(c, mask_cells mt p (rng w) cells)]) w1)
      as [G1 [G2 G3]].
    + rewrite <- app_assoc. cbn [app]. rewrite map_app in *.
      cbn [map fst] in *. exact Hnd.
    + assumption.
    + cbv zeta in *. split; [assumption|]. split.
      * rewrite G2, <- app_assoc, H3. reflexivity.
      * rewrite G3, H3. cbn [List.length]. lia.
Qed.


End Exact.

Lemma mask_cells_nth (mt : nat -> N) (p : pyfloat) (cells : list cell) :
  forall n k,
    nth_error (mask_cells mt p n cells) k
    = option_map (fun v => if float_lt (Main.sample mt (n + k)) p
                           then VNone else v)
        (nth_error cells k).
Proof.
  induction cells as [|v vs IH]; intros n [|k]; simpl; try reflexivity.
  - now rewrite Nat.add_0_r.
  - rewrite IH. now rewrite Nat.add_succ_r.
Qed.

(** A sample equal to the probability does not replace: the comparison
    is strict. *)
Example sample_equal_to_probability_keeps :
  let half : nat -> N := fun _ => 4503599627370496%N in
  Main.sample half 0 = Finite (4503599627370496 # 9007199254740992)
  /\ data_after (Main.inject_nulls Re.str_match half (PDataFrame Sample.ab)
                   (Finite (1 # 2)) None None Sample.world0)
     = PDataFrame Sample.ab
  /\ data_after (Main.inject_nulls Re.str_match half (PDataFrame Sample.ab)
                   (Finite (2251799813685249 # 4503599627370496)) None None
                   Sample.world0)
     = PDataFrame {| index := [0; 1];
                     series := [("A", [VNone; VNone]);
                                ("B", [VNone; VNone])] |}.
Proof. vm_compute. repeat split; reflexivity. Qed.

(* ------------------------------------------------------------------ *)
(** ** Equal tables, and a second call at probability 1.0 *)

Lemma lookup_ext (ls : list Z) :
  NoDup ls ->
  forall xs ys,
    List.length xs = List.length ls -> List.length ys = List.length ls ->
    (forall i, In i ls -> lookup_label ls i xs = lookup_label ls i ys) ->
    xs = ys.
Proof.
  intros Hnd. induction ls as [|l ls IH]; intros [|x xs] [|y ys] Hx Hy H;
    simpl in Hx, Hy; try discriminate; [reflexivity|].
  inversion Hnd as [|? ? Hl Hls]; subst.
  pose proof (H l (or_introl eq_refl)) as H0. simpl in H0.
  rewrite Z.eqb_refl in H0. injection H0 as ->. f_equal.
  apply IH; try assumption; try lia.
  intros i Hin. specialize (H i (or_intror Hin)). simpl in H.
  destruct (Z.eqb l i) eqn:E; [|assumption].
  apply Z.eqb_eq in E. subst. contradiction.
Qed.

Lemma series_ext (idx : list Z) (s1 : list (string * list cell)) :
  NoDup idx -> NoDup (map fst s1) ->
  Forall (fun q => List.length (snd q) = List.length idx) s1 ->
  forall s2,
    map (fun q => (fst q, List.length (snd q))) s2
    = map (fun q => (fst q, List.length (snd q))) s1 ->
    (forall i c, at_get {| index := idx; series := s2 |} i c
                 = at_get {| index := idx; series := s1 |} i c) ->
    s2 = s1.
Proof.
  intros Hidx. induction s1 as [|[c x1] t1 IH]; intros Hnd Hlen [|[c' x2] t2] Hsh H;
    simpl in Hsh; try discriminate; [reflexivity|].
  injection Hsh as -> Hx Ht.
  inversion Hnd as [|? ? Hc Hnd']; subst.
  inversion Hlen as [|? ? Hx1 Hlen']; subst. cbn [snd] in Hx1.
  assert (Ex : x2 = x1).
  { apply lookup_ext with (ls := idx); try assumption; [congruence|].
    intros i _. specialize (H i c). unfold at_get, getitem in H.
    cbn [series find fst snd index] in H. now rewrite String.eqb_refl in H. }
  subst x2. f_equal. apply IH; try assumption.
  intros i c0. specialize (H i c0). unfold at_get, getitem in *.
  cbn [series find fst snd index] in *.
  destruct (String.eqb c c0) eqn:E; [|exact H].
  apply String.eqb_eq in E. subst c0.
  assert (Hn : forall t : list (string * list cell),
             ~ In c (map fst t) ->
             find (fun q => String.eqb (fst q) c) t = None).
  { induction t as [|[n y] t IHt]; intros Hno; [reflexivity|]. simpl.
    destruct (String.eqb n c) eqn:En.
    - apply String.eqb_eq in En. subst. exfalso. apply Hno. now left.
    - apply IHt. intros Hin. apply Hno. now right. }
  rewrite (Hn t1 Hc), (Hn t2); [reflexivity|].
  assert (Enames : map fst t2 = map fst t1).
  { assert (E' : map fst (map (fun q : string * list cell =>
                                 (fst q, List.length (snd q))) t2)
                 = map fst (map (fun q : string * list cell =>
                                   (fst q, List.length (snd q))) t1))
      by congruence.
    now rewrite !map_map in E'. }
  now rewrite Enames.
Qed.

(** Two tables of one shape that agree at every pair of labels are the
    same table. *)
Lemma frame_ext (df1 df2 : DataFrame) :
  wf_frame df1 = true -> shape df2 = shape df1 ->
  (forall i c, at_get df2 i c = at_get df1 i c) ->
  df2 = df1.
Proof.
  intros Hwf Hsh H. destruct (wf_frame_parts _ Hwf) as [Hc [Hi Hlen]].
  destruct df1 as [idx s1], df2 as [idx2 s2]. unfold shape in Hsh.
  cbn [index series] in *. injection Hsh as -> Hs. f_equal.
  apply series_ext with (idx := idx); try assumption.
  apply Forall_forall. intros [c cells] Hin. now apply (Hlen c cells).
Qed.

Section Again.

Variable str_match : string -> string -> exn + bool.
Variable mt : nat -> N.

Local Abbreviation column_step := (Main.column_step str_match mt).
Local Abbreviation inject_body := (Main.inject_body str_match mt).
Local Abbreviation inject_nulls := (Main.inject_nulls str_match mt).
Local Abbreviation eligible := (Main.eligible str_match).

Lemma resolve_shape (df df' : DataFrame) (cols : option (list string)) :
  shape df' = shape df -> resolve df' cols = resolve df cols.
Proof.
  intros H. destruct cols; [reflexivity|]. simpl. now apply shape_columns.
Qed.


End Again.

(* ------------------------------------------------------------------ *)
(** ** The names that reach the lookup *)

Lemma string_app_assoc (a b c : string) :
  ((a ++ b) ++ c = a ++ b ++ c)%string.
Proof. induction a as [|x a IH]; simpl; [reflexivity | now rewrite IH]. Qed.

Lemma lstrip_spec (s : string) :
  exists pre,
    blank pre = true /\ s = (pre ++ Str.lstrip s)%string
    /\ starts_clean (Str.lstrip s) = true.
Proof.
  induction s as [|c s IH]; simpl.
  - exists "". now repeat split.
  - destruct (Str.is_space c) eqn:E.
    + destruct IH as [pre [Hb [Hs Hc]]]. exists (String c pre). simpl.
      rewrite E, Hb. repeat split; [now rewrite <- Hs | assumption].
    + exists "". simpl. now rewrite E.
Qed.

Lemma rstrip_spec (s : string) :
  exists post,
    blank post = true /\ s = (Str.rstrip s ++ post)%string
    /\ ends_clean (Str.rstrip s) = true.
Proof.
  induction s as [|c s IH].
  - exists "". now repeat split.
  - destruct IH as [post [Hb [Hs He]]].
    change (Str.rstrip (String c s))
      with (match Str.rstrip s with
            | EmptyString =>
                if Str.is_space c then EmptyString else String c EmptyString
            | r => String c r
            end).
    destruct (Str.rstrip s) as [|c' r] eqn:Er.
    + simpl in Hs. subst s. destruct (Str.is_space c) eqn:E.
      * exists (String c post). simpl. rewrite E, Hb. now repeat split.
      * exists post. simpl. rewrite E. now repeat split.
    + exists post. split; [assumption|]. split.
      * simpl. now rewrite Hs.
      * exact He.
Qed.

Lemma strip_spec (s : string) :
  exists pre post,
    blank pre = true /\ blank post = true
    /\ s = (pre ++ Str.strip s ++ post)%string
    /\ trimmed (Str.strip s) = true.
Proof.
  unfold Str.strip. destruct (rstrip_spec s) as [post [Hpost [Hs He]]].
  destruct (lstrip_spec (Str.rstrip s)) as [pre [Hpre [Hr Hc]]].
  exists pre, post. split; [assumption|]. split; [assumption|]. split.
  - rewrite Hs at 1. rewrite Hr at 1. apply string_app_assoc.
  - unfold trimmed. rewrite Hc. simpl.
    destruct (Str.lstrip (Str.rstrip s)) as [|c t] eqn:El; [reflexivity|].
    rewrite Hr in He. rewrite ends_clean_app in He; [assumption | discriminate].
Qed.

(** X9.  Each name the lookup sees is the supplied name without the
    whitespace around it, and nothing else is removed: the supplied name
    is the resolved one between two runs of whitespace, and the resolved
    one has no whitespace at either end. *)
Theorem resolved_names_are_stripped (df : DataFrame) (names : list string) :
  Forall2 (fun supplied resolved =>
             trimmed resolved = true
             /\ exists pre post,
                 blank pre = true /\ blank post = true
                 /\ supplied = (pre ++ resolved ++ post)%string)
          names (resolve df (Some names)).
Proof.
  cbn [resolve]. induction names as [|n names IH]; constructor; [|exact IH].
  destruct (strip_spec n) as [pre [post [H1 [H2 [H3 H4]]]]].
  split; [assumption|]. exists pre, post. now repeat split.
Qed.

(* ------------------------------------------------------------------ *)
(** ** The [--columns] option *)

Lemma split_comma_nonempty (s : string) : Str.split_comma s <> [].
Proof.
  destruct s as [|c s]; simpl; [discriminate|].
  destruct (Ascii.eqb c ","); [discriminate|].
  destruct (Str.split_comma s); discriminate.
Qed.

Lemma join_split_comma (s : string) : join_comma (Str.split_comma s) = s.
Proof.
  induction s as [|c s IH]; [reflexivity|]. simpl Str.split_comma.
  destruct (Ascii.eqb c ",") eqn:E.
  - apply Ascii.eqb_eq in E. subst c.
    destruct (Str.split_comma s) as [|q qs] eqn:Es;
      [now contradiction (split_comma_nonempty s)|].
    cbn [join_comma] in *. simpl. now rewrite IH.
  - destruct (Str.split_comma s) as [|q qs] eqn:Es;
      [now contradiction (split_comma_nonempty s)|].
    cbn [join_comma] in *. destruct qs as [|q' qs']; simpl; now rewrite <- IH.
Qed.

Lemma split_comma_free (s : string) :
  Forall (fun piece => comma_free piece = true) (Str.split_comma s).
Proof.
  induction s as [|c s IH]; simpl; [repeat constructor|].
  destruct (Ascii.eqb c ",") eqn:E.
  - constructor; [reflexivity | assumption].
  - destruct (Str.split_comma s) as [|q qs]; [repeat constructor; simpl; now rewrite E|].
    inversion IH as [|? ? Hq Hqs]; subst. constructor; [|assumption].
    simpl. now rewrite E, Hq.
Qed.

(** X10.  What [main] makes of the [--columns] option: no option and the
    empty string both mean no restriction; any other string gives a list
    that is never empty, whose pieces contain no comma and that joined by
    commas give the string back.  So the empty selection, which would
    leave the table untouched, cannot come from the command line. *)
Theorem columns_option (arg : option string) :
  match Main.columns_of_arg arg with
  | None => arg = None \/ arg = Some ""
  | Some pieces =>
      pieces <> []
      /\ Forall (fun piece => comma_free piece = true) pieces
      /\ arg = Some (join_comma pieces)
      /\ join_comma pieces <> ""
  end.
Proof.
  destruct arg as [[|c s]|]; cbn [Main.columns_of_arg]; auto.
  split; [apply split_comma_nonempty|]. split; [apply split_comma_free|].
  rewrite join_split_comma. split; [reflexivity | discriminate].
Qed.

(* ------------------------------------------------------------------ *)
(** ** The driver *)

Lemma endswith_iff (s suffix : string) :
  Text.endswith s suffix = true <-> exists stem, s = (stem ++ suffix)%string.
Proof.
  induction s as [|c s IH]; cbn [Text.endswith].
  - rewrite orb_false_r. split.
    + intros H. apply String.eqb_eq in H. subst. now exists "".
    + intros [stem H]. destruct stem; simpl in H; [|discriminate].
      subst. apply String.eqb_refl.
  - rewrite orb_true_iff, IH. split.
    + intros [H|[stem H]].
      * apply String.eqb_eq in H. exists "". now rewrite <- H.
      * exists (String c stem). simpl. now rewrite H.
    + intros [[|c' stem] H]; simpl in H.
      * left. rewrite <- H. apply String.eqb_refl.
      * injection H as -> ->. right. now exists stem.
Qed.

Lemma lower_app (a b : string) :
  Text.lower (a ++ b) = (Text.lower a ++ Text.lower b)%string.
Proof. induction a as [|c a IH]; simpl; [reflexivity | now rewrite IH]. Qed.

Lemma lower_split (s x y : string) :
  Text.lower s = (x ++ y)%string ->
  exists a b, s = (a ++ b)%string /\ Text.lower a = x /\ Text.lower b = y.
Proof.
  revert s. induction x as [|c x IH]; intros s H.
  - exists "", s. now repeat split.
  - destruct s as [|c' s]; simpl in H; [discriminate|].
    injection H as Hc Hs. destruct (IH s Hs) as [a [b [E1 [E2 E3]]]].
    exists (String c' a), b. simpl. now rewrite E1, E2, Hc.
Qed.


Section Calls.

Variable str_match : string -> string -> exn + bool.
Variable mt : nat -> N.

Local Abbreviation inject_nulls := (Main.inject_nulls str_match mt).

(** What any call adds to the log. *)
Lemma call_log (data : pyobj) (p : pyfloat) (pat : option string)
      (cols : option (list string)) (w : world) :
  let r := inject_nulls data p pat cols w in
  exists added,
    log (world_after r) = log w ++ added
    /\ Forall (fun x => levelname x <> INFO) added
    /\ (ended r = Returned -> Forall (fun x => levelname x <> ERROR) added).
Proof.
  cbv zeta.
  assert (Hq : forall l, Forall quiet l ->
                         Forall (fun x => levelname x <> INFO) l
                         /\ Forall (fun x => levelname x <> ERROR) l).
  { induction l as [|x l IH]; intros H; [split; constructor|].
    inversion H as [|? ? Hx Hl]; subst. destruct (IH Hl) as [H1 H2].
    split; (constructor; [destruct Hx as [Hx|Hx]; rewrite Hx; discriminate
                         | assumption]). }
  destruct data as [df| | |];
    try (exists []; cbn [Main.inject_nulls world_after];
         rewrite app_nil_r; split; [reflexivity|];
         split; [constructor|]; intros _; constructor).
  destruct (in_unit_interval p) eqn:Hp.
  - rewrite inject_nulls_run by assumption. rewrite inject_body_eq.
    cbn [fst].
    destruct (loop_log str_match mt p pat df (resolve df cols) (df, w) eq_refl)
      as [added [E [F _]]].
    destruct (Hq added F) as [F1 F2].
    destruct (for_each _ _ _) as [[e|[]] s'];
      cbn [fst snd world_after ended log] in *; rewrite E.
    + exists (added ++ [{| levelname := ERROR;
                          message := failure_message e |}]).
      rewrite app_assoc. split; [reflexivity|]. split; [|discriminate].
      apply Forall_app. split; [assumption|].
      constructor; [discriminate | constructor].
    + exists added. split; [reflexivity|]. split; [assumption|].
      intros _. assumption.
  - rewrite inject_nulls_invalid by assumption. exists [].
    cbn [world_after]. rewrite app_nil_r.
    split; [reflexivity|]. split; [constructor|]. intros _. constructor.
Qed.

Lemma call_keeps_frame (df : DataFrame) (p : pyfloat) (pat : option string)
      (cols : option (list string)) (w : world) :
  exists df', data_after (inject_nulls (PDataFrame df) p pat cols w)
              = PDataFrame df'.
Proof.
  destruct (in_unit_interval p) eqn:Hp.
  - rewrite inject_nulls_run by assumption.
    destruct (Main.inject_body _ _ _ _ _ _) as [[e|[]] s']; eexists;
      reflexivity.
  - rewrite inject_nulls_invalid by assumption. eexists. reflexivity.
Qed.

End Calls.

Section DriverFacts.

Variable str_match : string -> string -> exn + bool.
Variable mt : nat -> N.
Variable os_path_exists : string -> bool.
Variable read_csv : string -> pyexc + DataFrame.
Variable to_csv : DataFrame -> string -> pyexc + unit.

Local Abbreviation main :=
  (Program.main str_match mt os_path_exists read_csv to_csv).
Local Abbreviation main_try :=
  (Program.main_try str_match mt os_path_exists read_csv to_csv).

(** X12.  [main] writes only what a completed injection returned: if
    the writer is called at all, the input exists, has the extension,
    was read, and [inject_nulls] on the table read, with the options as
    given, returned the table that is handed to the writer, for the
    output path.  After a failed check, a failed read or a raise from the
    injection the writer is not called. *)
Theorem output_only_after_injection (args : Cli.Namespace) (st : process)
        (d : DataFrame) (path : string) :
  In (ToCsv d path) (io (snd (main args st))) ->
  In (ToCsv d path) (io st)
  \/ (path = Cli.output_file args
      /\ os_path_exists (Cli.input_file args) = true
      /\ Text.endswith (Text.lower (Cli.input_file args)) ".csv" = true
      /\ exists data,
          read_csv (Cli.input_file args) = inr data
          /\ let r := Main.inject_nulls str_match mt (PDataFrame data)
                        (Cli.probability args) (Cli.pattern args)
                        (Main.columns_of_arg (Cli.columns args))
                        (outside st) in
             ended r = Returned /\ data_after r = PDataFrame d).
Proof.
  unfold Program.main, Program.main_try.
  destruct (os_path_exists (Cli.input_file args)) eqn:Hex; cbn [negb];
    [|cbn [snd logging io]; auto].
  destruct (Text.endswith (Text.lower (Cli.input_file args)) ".csv") eqn:Hcsv;
    cbn [negb]; [|cbn [snd logging io]; auto].
  assert (Hread : forall ev, In ev (io st ++ [ReadCsv (Cli.input_file args)]) ->
                             ev = ToCsv d path -> In (ToCsv d path) (io st)).
  { intros ev Hin ->. apply in_app_or in Hin.
    destruct Hin as [H|[H|[]]]; [assumption | discriminate]. }
  destruct (read_csv (Cli.input_file args)) as [e|data] eqn:Hr.
  - cbn [snd logging called io]. intros H. left. now apply (Hread _ H).
  - cbn [called outside io].
    destruct (Main.inject_nulls str_match mt (PDataFrame data)
                (Cli.probability args) (Cli.pattern args)
                (Main.columns_of_arg (Cli.columns args)) (outside st))
      as [out obj w'] eqn:Hcall.
    cbn [ended data_after world_after].
    destruct out as [|e].
    + destruct obj as [masked| | |];
        try (cbn [snd logging called io]; intros H; left;
             now apply (Hread _ H)).
      destruct (to_csv masked (Cli.output_file args)) as [e|[]];
        cbn [snd logging called io]; intros H; apply in_app_or in H;
        (destruct H as [H|[H|[]]]; [left; now apply (Hread _ H)|]);
        injection H as -> ->; right.
      * split; [reflexivity|]. split; [reflexivity|]. split; [reflexivity|].
        exists data. split; [reflexivity|]. now rewrite Hcall.
      * split; [reflexivity|]. split; [reflexivity|]. split; [reflexivity|].
        exists data. split; [reflexivity|]. now rewrite Hcall.
    + cbn [snd logging called io]. intros H. left. now apply (Hread _ H).
Qed.


End DriverFacts.

(* ------------------------------------------------------------------ *)
(** ** The further properties on sample data *)



Lemma log_levels_witness :
  in_unit_interval (Finite 1) = true
  /\ let r := Main.inject_nulls Re.str_match (Sample.steady 0)
                (PDataFrame Sample.abc) (Finite 1) (Some "*")
                (Some ["Z"; "B"]) Sample.world0 in
     exists added,
       Forall quiet added
       /\ log (world_after r)
          = log Sample.world0 ++ added ++ match ended r with
                                          | Returned => []
                                          | Raised e => [error_record e]
                                          end.
Proof.
  split; [reflexivity|].
  apply (log_levels Re.str_match (Sample.steady 0) Sample.abc (Finite 1)
           (Some "*") (Some ["Z"; "B"]) Sample.world0).
  reflexivity.
Defined.

Lemma warnings_name_the_unknown_columns_witness :
  let r := Main.inject_nulls Re.str_match (Sample.steady 0)
             (PDataFrame Sample.ab) (Finite 1) None
             (Some ["Z"; "A"; " Q "; "Z"]) Sample.world0 in
  ended r = Returned
  /\ exists added,
      log (world_after r) = log Sample.world0 ++ added
      /\ filter is_warning added
         = map not_found_record
             (filter (absent Sample.ab)
                (resolve Sample.ab (Some ["Z"; "A"; " Q "; "Z"]))).
Proof.
  assert (H : ended (Main.inject_nulls Re.str_match (Sample.steady 0)
                       (PDataFrame Sample.ab) (Finite 1) None
                       (Some ["Z"; "A"; " Q "; "Z"]) Sample.world0)
              = Returned) by reflexivity.
  split; [exact H|].
  exact (warnings_name_the_unknown_columns Re.str_match (Sample.steady 0)
           Sample.ab (Finite 1) None (Some ["Z"; "A"; " Q "; "Z"])
           Sample.world0 H).
Defined.


Lemma names_compose_witness :
  in_unit_interval (Finite (1 # 2)) = true
  /\ let r1 := Main.inject_nulls Re.str_match (Sample.steady 0)
                 (PDataFrame Sample.abc) (Finite (1 # 2)) None (Some ["A"])
                 Sample.world0 in
     let r := Main.inject_nulls Re.str_match (Sample.steady 0)
                (PDataFrame Sample.abc) (Finite (1 # 2)) None
                (Some (["A"] ++ ["C"; "B"])) Sample.world0 in
     ended r1 = Returned
     /\ r = Main.inject_nulls Re.str_match (Sample.steady 0) (data_after r1)
              (Finite (1 # 2)) None (Some ["C"; "B"]) (world_after r1).
Proof.
  split; [reflexivity|].
  destruct (names_compose Re.str_match (Sample.steady 0) Sample.abc
              (Finite (1 # 2)) None ["A"] ["C"; "B"] Sample.world0 eq_refl)
    as [H _].
  split; [reflexivity | exact (H eq_refl)].
Defined.


(** The table of that run: the samples are near 0, 1/3, 2/3, 1, 1/3
    and 2/3, so the two cells of A and the first of C are replaced. *)
Example masked_abc :
  masked (fun n => N.of_nat n * 3000000000000000)%N (Finite (1 # 2)) 0
         Sample.abc
  = {| index := [0; 1];
       series := [("A", [VNone; VNone]);
                  ("B", [VNum 2; VStr "y"]);
                  ("C", [VNone; VNone])] |}.
Proof. vm_compute. reflexivity. Qed.


Lemma output_only_after_injection_witness :
  In (ToCsv Demo.masked_ab "out.csv")
     (io (snd (Program.main Re.str_match (Sample.steady 0) Demo.any_path
                 Demo.reader Demo.writer Demo.args Demo.start)))
  /\ (In (ToCsv Demo.masked_ab "out.csv") (io Demo.start)
      \/ ("out.csv" = Cli.output_file Demo.args
          /\ Demo.any_path (Cli.input_file Demo.args) = true
          /\ Text.endswith (Text.lower (Cli.input_file Demo.args)) ".csv"
             = true
          /\ exists data,
              Demo.reader (Cli.input_file Demo.args) = inr data
              /\ let r := Main.inject_nulls Re.str_match (Sample.steady 0)
                            (PDataFrame data) (Cli.probability Demo.args)
                            (Cli.pattern Demo.args)
                            (Main.columns_of_arg (Cli.columns Demo.args))
                            (outside Demo.start) in
                 ended r = Returned
                 /\ data_after r = PDataFrame Demo.masked_ab)).
Proof.
  assert (H : In (ToCsv Demo.masked_ab "out.csv")
                 (io (snd (Program.main Re.str_match (Sample.steady 0)
                             Demo.any_path Demo.reader Demo.writer Demo.args
                             Demo.start)))).
  { vm_compute. right. left. reflexivity. }
  split; [exact H|].
  exact (output_only_after_injection Re.str_match (Sample.steady 0)
           Demo.any_path Demo.reader Demo.writer Demo.args Demo.start
           Demo.masked_ab "out.csv" H).
Defined.

(** The sample run from end to end: the extension in capitals passes,
    the names are split at the comma and stripped, the unknown one is
    warned about, and the run is reported as saved. *)
Example demo_run :
  Program.main Re.str_match (Sample.steady 7) Demo.any_path Demo.reader
    Demo.writer Demo.args Demo.start
  = (inr tt,
     {| outside :=
          {| log := [{| levelname := DEBUG;
                        message := "Replaced value at index 0, column 'A' with None." |};
                     {| levelname := DEBUG;
                        message := "Replaced value at index 1, column 'A' with None." |};
                     {| levelname := WARNING;
                        message := "Column 'Q' not found. Skipping." |};
                     {| levelname := INFO;
                        message := "Masked data saved to: out.csv" |}];
             rng := 2;
             trace := [Visit "A" 0; Draw "A" 0; Visit "A" 1; Draw "A" 1] |};
        io := [ReadCsv "in.CSV"; ToCsv Demo.masked_ab "out.csv"] |}).
Proof. vm_compute. reflexivity. Qed.

(** A writer that fails: the failure is logged where it happens and
    again by the clause that catches it, and [main] still ends
    normally. *)
Example demo_disk_full :
  let res := Program.main Re.str_match (Sample.steady 7) Demo.any_path
               Demo.reader Demo.full Demo.args Demo.start in
  fst res = inr tt
  /\ filter (fun x => match levelname x with ERROR => true | _ => false end)
            (log (outside (snd res)))
     = [{| levelname := ERROR;
           message := "Failed to write CSV file: No space left on device" |};
        {| levelname := ERROR;
           message := "An unexpected error occurred: No space left on device" |}].
Proof. vm_compute. split; reflexivity. Qed.

(** A missing input file and a wrong extension: one error record, no
    call to the reader or the writer. *)
Example demo_checks :
  Program.main Re.str_match (Sample.steady 7) (fun _ => false) Demo.reader
    Demo.writer Demo.args Demo.start
  = (inr tt,
     {| outside := {| log := [{| levelname := ERROR;
                                 message := "File error: Input file not found: in.CSV" |}];
                      rng := 0; trace := [] |};
        io := [] |})
  /\ Program.main Re.str_match (Sample.steady 7) Demo.any_path Demo.reader
       Demo.writer
       {| Cli.input_file := "in.csv.bak"; Cli.output_file := "out.csv";
          Cli.probability := Finite 1; Cli.pattern := None;
          Cli.columns := None |} Demo.start
     = (inr tt,
        {| outside := {| log := [{| levelname := ERROR;
                                    message := "Value error: Input file must be a CSV file." |}];
                         rng := 0; trace := [] |};
           io := [] |}).
Proof. vm_compute. split; reflexivity. Qed.
